(** * UHF walker batches of ipie: construction, variant dispatch and
      re-orthonormalisation

    A shallow embedding of [ipie/walkers/uhf_walkers.py].  Python objects
    become records, in-place updates of one array slot become list
    updates, raised exceptions become the left summand of a result type.
    The numerical library ([xp], [numpy]) and the decomposition routine
    ([qr]) are imported by the module and are not part of it; they are
    the operations of a type class, so that every definition below is
    parametric in them and can be run on a concrete instance. *)

From Stdlib Require Import Reals Lra.
From stdpp Require Import base list strings gmap.

Set Default Proof Using "Type".

(** ** Exceptions and fallible computations *)

Inductive Exception :=
  | AssertionError
  | PyException (msg : string)
  | IndexError
  | ValueError
  | ZeroDivisionError
  | KeyError
  | AttributeError.

Definition result (A : Type) : Type := Exception + A.

Definition ok {A} (a : A) : result A := inr a.
Definition raise {A} (e : Exception) : result A := inl e.

#[global] Instance result_ret : MRet result := fun A a => inr a.
#[global] Instance result_bind : MBind result := fun A B k m =>
  match m with
  | inl e => inl e
  | inr a => k a
  end.

(** [a[i]] on a one-dimensional array or a Python list. *)
Definition getitem {A} (l : list A) (i : nat) : result A :=
  match l !! i with
  | Some x => ok x
  | None => raise IndexError
  end.

(** ** Arrays *)

(** An array as numpy holds it: a shape and the entries in row-major
    order. *)
Record ndarray (C : Type) := NDArray { shape : list nat; data : list C }.
Arguments NDArray {C} _ _.
Arguments shape {C} _.
Arguments data {C} _.

(** One walker's orbital matrix: the list of its rows. *)
Abbreviation matrix C := (list (list C)) (only parsing).

(** The rows of a two-dimensional array with [r] rows of [c] entries. *)
Definition rows_of {C} (r c : nat) (d : list C) : matrix C :=
  (fun i => take c (drop (i * c) d)) <$> seq 0 r.

(** [a[:, :n]] and [a[:, n:]] on the rows of a two-dimensional array. *)
Definition cols_upto {C} (n : nat) (m : matrix C) : matrix C := take n <$> m.
Definition cols_from {C} (n : nat) (m : matrix C) : matrix C := drop n <$> m.

(** A matrix with as many rows as columns, and at least one; a stack of
    such matrices. *)
Definition square {C} (m : matrix C) : bool :=
  (0 <? length m) && forallb (fun row => length row =? length m) m.
Definition all_square {C} (phi : list (matrix C)) : bool := forallb square phi.

(** ** The numerical backend

    [xp] (numpy or cupy), [numpy.hstack] and [qr] of [ipie.utils.backend].
    [C] stands for [complex128]; the real results of [abs] are embedded
    in it. *)
Class Backend (C : Type) := {
  czero : C;
  cone : C;
  cadd : C → C → C;
  csub : C → C → C;
  cmul : C → C → C;
  cdiv : C → C → C;
  xp_exp : C → C;
  xp_log : C → C;
  xp_abs : C → C;
  xp_sign : C → C;
  (** [qr(a, mode=qr_mode)] on a single matrix: the pair [(Q, R)], or
      [None] where the routine raises. *)
  qr_factors : matrix C → option (matrix C * matrix C);
  hstack : ndarray C → ndarray C → result (ndarray C)
}.

Section Arrays.
Context {C : Type} `{Backend C}.

(** [numpy.zeros(n)] and [numpy.zeros((n, m))]. *)
Definition zeros1 (n : nat) : list C := replicate n czero.
Definition zeros2 (n m : nat) : matrix C := replicate n (zeros1 m).
Definition zeros3 (n m k : nat) : list (matrix C) := replicate n (zeros2 m k).
Definition zeros4 (n m k l : nat) : list (list (matrix C)) :=
  replicate n (zeros3 m k l).

(** [xp.sum] of a vector, and Python's builtin [sum], which starts from
    [0] and adds from the left. *)
Definition xp_sum (v : list C) : C := foldr cadd czero v.
Definition py_sum (v : list C) : C := foldl cadd czero v.

(** The two dimensions of a matrix held as the list of its rows.  The
    rows of an array all have one length; a matrix without rows is the
    array of shape [(0, 0)]. *)
Definition nrows (m : matrix C) : nat := length m.
Definition ncols (m : matrix C) : nat := length (hd [] m).

(** [xp.diag] of a matrix: the entries [m[k][k]] that exist, for a
    square matrix or not. *)
Definition diag_of (m : matrix C) : list C :=
  omap (fun o => o) (imap (fun k r => r !! k) m).

(** [xp.diag] of a vector: the square matrix with it on the diagonal. *)
Definition diag_mat (v : list C) : matrix C :=
  imap (fun i x => <[i := x]> (zeros1 (length v))) v.

(** [xp.einsum("wii->wi", R)] on a stack of matrices: the diagonal of
    each; the two axes named [i] must have one length, [ValueError]
    otherwise. *)
Definition einsum_wii (R : list (matrix C)) : result (list (list C)) :=
  mapM (fun m => if decide (nrows m = ncols m) then ok (diag_of m)
                 else raise ValueError) R.

(** The entries of the product of two matrices whose shapes are
    aligned. *)
Definition dot_row (r : list C) (b : matrix C) : list C :=
  foldr (fun '(x, brow) acc => zip_with cadd ((cmul x) <$> brow) acc)
        (zeros1 (length (hd [] b))) (zip r b).
Definition matmul (a b : matrix C) : matrix C := (fun r => dot_row r b) <$> a.

(** [xp.dot] of two matrices: [ValueError] unless the columns of the
    first are as many as the rows of the second. *)
Definition dot (a b : matrix C) : result (matrix C) :=
  if decide (ncols a = nrows b) then ok (matmul a b) else raise ValueError.

(** numpy's broadcasting of one axis to the length [n]: an axis of
    length one is repeated. *)
Definition stretch {A} (n : nat) (l : list A) : list A :=
  if decide (length l = n) then l
  else match l with
       | [x] => replicate n x
       | _ => l
       end.

(** A matrix broadcast to the shape [(r, c)]: each of its axes has the
    length asked for or the length one, [ValueError] otherwise. *)
Definition broadcast_to (x : matrix C) (r c : nat) : result (matrix C) :=
  if decide ((nrows x = r ∨ nrows x = 1) ∧ (ncols x = c ∨ ncols x = 1))
  then ok (stretch r (stretch c <$> x))
  else raise ValueError.

(** [a[iw] = x] on a three-dimensional array: [IndexError] when there
    is no slot [iw]; the slot keeps its shape and receives [x]
    broadcast to it. *)
Definition setitem (a : list (matrix C)) (iw : nat) (x : matrix C)
  : result (list (matrix C)) :=
  slot ← getitem a iw;
  x ← broadcast_to x (nrows slot) (ncols slot);
  ok (<[iw := x]> a).

(** The call [qr(a, mode=qr_mode)].  The routine raises [ValueError] on
    entries that are not finite and [LinAlgError], a subclass of
    [ValueError], when the factorisation fails. *)
Definition qr (m : matrix C) : result (matrix C * matrix C) :=
  match qr_factors m with
  | Some QR => ok QR
  | None => raise ValueError
  end.

(** An elementwise operation on two one-dimensional arrays, with numpy's
    broadcasting of an array of length one. *)
Definition broadcast2 (f : C → C → C) (a b : list C) : result (list C) :=
  if decide (length a = length b) then ok (zip_with f a b)
  else match a, b with
       | [x], _ => ok (f x <$> b)
       | _, [y] => ok ((fun x => f x y) <$> a)
       | _, _ => raise ValueError
       end.

(** The in-place form [a += b]: the result keeps the shape of [a]. *)
Definition iadd (a b : list C) : result (list C) :=
  if decide (length a = length b) then ok (zip_with cadd a b)
  else match b with
       | [y] => ok ((fun x => cadd x y) <$> a)
       | _ => raise ValueError
       end.
End Arrays.

(** ** Trial wavefunctions and the variant dispatch *)

(** The trial-wavefunction classes are imported from
    [ipie.trial_wavefunction] and are not part of the sources: the four
    classes the module names, and [OtherTrial] for any further subclass
    of [TrialWavefunctionBase].  Which of them derives from which is
    decided where they are defined, so a trial object carries, next to
    its own class, the classes its class derives from. *)
Inductive TrialClass :=
  | SingleDet
  | ParticleHoleWicks
  | ParticleHoleWicksNonChunked
  | ParticleHoleNaive
  | OtherTrial (name : string).

#[global] Instance TrialClass_eq_dec : EqDecision TrialClass.
Proof. solve_decision. Defined.

(** The attributes of a trial object that this module reads. *)
Record Trial (C : Type) := {
  trial_class : TrialClass;
  trial_bases : list TrialClass;
  psi : ndarray C;
  psi0a : ndarray C;
  psi0b : ndarray C;
  _num_dets_for_trial : nat;
  nact : nat;
  nocc_alpha : nat;
  nocc_beta : nat
}.
Arguments trial_class {C} _.
Arguments trial_bases {C} _.
Arguments psi {C} _.
Arguments psi0a {C} _.
Arguments psi0b {C} _.
Arguments _num_dets_for_trial {C} _.
Arguments nact {C} _.
Arguments nocc_alpha {C} _.
Arguments nocc_beta {C} _.

(** [isinstance(trial, K)]: [K] is the class of the object or one of
    the classes it derives from.  [type(trial)] is [trial_class]. *)
Definition isinstance {C} (trial : Trial C) (K : TrialClass) : bool :=
  bool_decide (K = trial_class trial ∨ K ∈ trial_bases trial).

Section InitialWalker.
Context {C : Type} `{Backend C}.

Definition get_initial_walker (trial : Trial C) : result (nat * ndarray C) :=
  if isinstance trial SingleDet then
    ok (1, psi trial)
  else if isinstance trial ParticleHoleWicks then
    initial_walker ← hstack (psi0a trial) (psi0b trial);
    ok (_num_dets_for_trial trial, initial_walker)
  else if isinstance trial ParticleHoleWicksNonChunked then
    initial_walker ← hstack (psi0a trial) (psi0b trial);
    ok (_num_dets_for_trial trial, initial_walker)
  else
    raise (PyException "Unrecognized trial type in get_initial_walker").
End InitialWalker.

(** The walker-batch classes of the module. *)
Inductive WalkerClass :=
  | cUHFWalkers
  | cUHFWalkersParticleHole
  | cUHFWalkersParticleHoleNaive.

(** The dictionary [UHFWalkersTrial], in the order it is written. *)
Definition UHFWalkersTrial : list (TrialClass * WalkerClass) :=
  [ (SingleDet, cUHFWalkers);
    (ParticleHoleWicks, cUHFWalkersParticleHole);
    (ParticleHoleWicksNonChunked, cUHFWalkersParticleHole);
    (ParticleHoleNaive, cUHFWalkersParticleHoleNaive) ].

(** [d[k]] on a dictionary: the value of the key, or [KeyError]. *)
Definition dict_getitem {K V} `{EqDecision K} (d : list (K * V)) (k : K)
  : result V :=
  match list_find (fun kv => kv.1 = k) d with
  | Some (_, (_, v)) => ok v
  | None => raise KeyError
  end.

(** ** The walker batch *)

(** Modelled from the spec: the base class [BaseWalkers] is not part of
    the sources.  Its constructor stores the occupation numbers and the
    batch sizes, allocates the per-walker ledger of §3 ([overlap],
    [det_R], [log_det_R], [det_R_shift]) and registers the names of its
    own buffers.  The initial ledger values are a configuration point
    (§4.2), so they are read from [BaseConfig], which also stands for the
    keyword arguments that [UHFWalkers.__init__] passes through. *)
Record BaseConfig (C : Type) := {
  ovlp0 : nat → C;
  detR0 : nat → C;
  log_detR0 : nat → C;
  detR_shift0 : nat → C;
  base_buff_names : list string
}.
Arguments ovlp0 {C} _ _.
Arguments detR0 {C} _ _.
Arguments log_detR0 {C} _ _.
Arguments detR_shift0 {C} _ _.
Arguments base_buff_names {C} _.

(** A [UHFWalkers] object: the attributes set by the base class, then
    those set by [UHFWalkers.__init__], in the order of assignment. *)
Record UHFWalkers (C : Type) := {
  nup : nat;
  ndown : nat;
  nwalkers : nat;
  ntot_walkers : nat;
  ovlp : list C;
  detR : list C;
  log_detR : list C;
  detR_shift : list C;
  buff_names : list string;
  nbasis : nat;
  field_configs : option unit;
  phia : list (matrix C);
  phib : list (matrix C);
  Ga : list (matrix C);
  Gb : list (matrix C);
  Ghalfa : list (matrix C);
  Ghalfb : list (matrix C);
  buff_size : nat;
  walker_buffer : list C;
  rhf : bool
}.
Arguments nup {C} _.
Arguments ndown {C} _.
Arguments nwalkers {C} _.
Arguments ntot_walkers {C} _.
Arguments ovlp {C} _.
Arguments detR {C} _.
Arguments log_detR {C} _.
Arguments detR_shift {C} _.
Arguments buff_names {C} _.
Arguments nbasis {C} _.
Arguments field_configs {C} _.
Arguments phia {C} _.
Arguments phib {C} _.
Arguments Ga {C} _.
Arguments Gb {C} _.
Arguments Ghalfa {C} _.
Arguments Ghalfb {C} _.
Arguments buff_size {C} _.
Arguments walker_buffer {C} _.
Arguments rhf {C} _.

(** [self.nup], [self.ndown] and [self.nbasis] where a parameter of the
    same name is in scope. *)
Definition attr_nup {C} (self : UHFWalkers C) : nat := nup self.
Definition attr_ndown {C} (self : UHFWalkers C) : nat := ndown self.
Definition attr_nbasis {C} (self : UHFWalkers C) : nat := nbasis self.

(** [a.size] of a three-dimensional array. *)
Definition size3 {C} (a : list (matrix C)) : nat :=
  sum_list ((fun m => sum_list (length <$> m)) <$> a).

(** Modelled from the spec: [BaseWalkers.set_buff_size_single_walker] is
    not part of the sources; by §3 and §6 it sums the sizes of the
    per-walker fields registered in [buff_names].  [fields] lists the
    array attributes the object has when it is called, with their sizes;
    a registered name that is no attribute contributes nothing. *)
Definition set_buff_size_single_walker
    (buff_names : list string) (fields : list (string * nat)) : nat :=
  sum_list (snd <$> filter (fun f => f.1 ∈ buff_names) fields).

(** [round(a / float(n))]: the quotient rounded to the nearest integer,
    ties to the even one; a zero divisor raises. *)
Definition py_round_div (a n : nat) : result nat :=
  if decide (n = 0) then raise ZeroDivisionError
  else
    let q := a `div` n in
    let r := a `mod` n in
    ok (if decide (2 * r < n) then q
        else if decide (n < 2 * r) then S q
        else if Nat.even q then q else S q).

Section Construction.
Context {C : Type} `{Backend C}.

(** The array attributes present when the buffer size is computed. *)
Definition array_fields (o d l s : list C)
    (pa pb ga gb gha ghb : list (matrix C)) : list (string * nat) :=
  [ ("ovlp", length o); ("detR", length d); ("log_detR", length l);
    ("detR_shift", length s); ("phia", size3 pa); ("phib", size3 pb);
    ("Ga", size3 ga); ("Gb", size3 gb); ("Ghalfa", size3 gha);
    ("Ghalfb", size3 ghb) ].

(** [UHFWalkers.__init__], the keyword arguments at their defaults.
    The assertion on the number of dimensions comes first.  [self.nup]
    and [self.nwalkers] are the values stored by the base class.  The
    list comprehension copies the slice once per walker and [numpy.array]
    stacks the copies; here the result is the list of the walkers'
    matrices, and [Store.init_orbitals] below follows the same two
    assignments buffer by buffer. *)
Definition UHFWalkers__init__ (cfg : BaseConfig C)
    (initial_walker : ndarray C)
    (nup ndown nbasis num_walkers_local num_walkers_global num_steps : nat)
  : result (UHFWalkers C) :=
  match shape initial_walker with
  | [r; c] =>
      let self_nup := nup in
      let self_nwalkers := num_walkers_local in
      let walkers := seq 0 self_nwalkers in
      let o := ovlp0 cfg <$> walkers in
      let d := detR0 cfg <$> walkers in
      let l := log_detR0 cfg <$> walkers in
      let s := detR_shift0 cfg <$> walkers in
      let iw := rows_of r c (data initial_walker) in
      let pa := (fun _ => cols_upto self_nup iw) <$> walkers in
      let pb := (fun _ => cols_from self_nup iw) <$> walkers in
      let ga := zeros3 self_nwalkers nbasis nbasis in
      let gb := zeros3 self_nwalkers nbasis nbasis in
      let gha := zeros3 self_nwalkers nup nbasis in
      let ghb := zeros3 self_nwalkers ndown nbasis in
      let names := base_buff_names cfg ++ ["phia, phib"] in
      size ← py_round_div
        (set_buff_size_single_walker names
           (array_fields o d l s pa pb ga gb gha ghb))
        self_nwalkers;
      ok {| nup := nup; ndown := ndown;
            nwalkers := self_nwalkers;
            ntot_walkers := num_walkers_global;
            ovlp := o; detR := d; log_detR := l; detR_shift := s;
            buff_names := names;
            nbasis := nbasis;
            field_configs := None;
            phia := pa; phib := pb;
            Ga := ga; Gb := gb; Ghalfa := gha; Ghalfb := ghb;
            buff_size := size;
            walker_buffer := zeros1 size;
            rhf := false |}
  | _ => raise AssertionError
  end.

(** [UHFWalkers.build]: returns at once; [self] is left as it is. *)
Definition UHFWalkers_build (self : UHFWalkers C) (trial : Trial C)
  : UHFWalkers C := self.
End Construction.

(** ** The subclasses for multi-determinant trials *)

(** A [UHFWalkersParticleHole] object: the inherited attributes and its
    own.  [CIa] and [CIb] exist only once [build] has run. *)
Record UHFWalkersParticleHole (C : Type) := {
  ph_base : UHFWalkers C;
  ph_ndets : nat;
  G0a : list (matrix C);
  G0b : list (matrix C);
  Q0a : list (matrix C);
  Q0b : list (matrix C);
  CIa : option (list (matrix C));
  CIb : option (list (matrix C))
}.
Arguments ph_base {C} _.
Arguments ph_ndets {C} _.
Arguments G0a {C} _.
Arguments G0b {C} _.
Arguments Q0a {C} _.
Arguments Q0b {C} _.
Arguments CIa {C} _.
Arguments CIb {C} _.

(** A [UHFWalkersParticleHoleNaive] object. *)
Record UHFWalkersParticleHoleNaive (C : Type) := {
  phn_base : UHFWalkers C;
  phn_ndets : nat;
  det_weights : matrix C;
  det_ovlpas : matrix C;
  det_ovlpbs : matrix C;
  Gia : list (list (matrix C));
  Gib : list (list (matrix C));
  Gihalfa : list (list (matrix C));
  Gihalfb : list (list (matrix C))
}.
Arguments phn_base {C} _.
Arguments phn_ndets {C} _.
Arguments det_weights {C} _.
Arguments det_ovlpas {C} _.
Arguments det_ovlpbs {C} _.
Arguments Gia {C} _.
Arguments Gib {C} _.
Arguments Gihalfa {C} _.
Arguments Gihalfb {C} _.

Section Subclasses.
Context {C : Type} `{Backend C}.

(** [UHFWalkersParticleHole.__init__] with its keyword argument
    [verbose].  Under [verbose] the constructor formats [self.ot.real]
    before it allocates its arrays; no statement of the module assigns
    an attribute [ot] and the attributes of the base class ([BaseConfig])
    do not include one, so the read raises [AttributeError]. *)
Definition UHFWalkersParticleHole__init__kw (verbose : bool)
    (cfg : BaseConfig C) (initial_walker : ndarray C)
    (nup ndown nbasis num_walkers_local num_walkers_global num_steps : nat)
    (ndets : nat)
  : result (UHFWalkersParticleHole C) :=
  self ← UHFWalkers__init__ cfg initial_walker nup ndown nbasis
            num_walkers_local num_walkers_global num_steps;
  _ ← (if verbose then raise AttributeError else ok ());
  ok {| ph_base := self;
        ph_ndets := ndets;
        G0a := zeros3 (nwalkers self) (attr_nbasis self) (attr_nbasis self);
        G0b := zeros3 (nwalkers self) (attr_nbasis self) (attr_nbasis self);
        Q0a := zeros3 (nwalkers self) (attr_nbasis self) (attr_nbasis self);
        Q0b := zeros3 (nwalkers self) (attr_nbasis self) (attr_nbasis self);
        CIa := None;
        CIb := None |}.

(** The call that leaves [verbose] at its default, [False]. *)
Definition UHFWalkersParticleHole__init__ :=
  UHFWalkersParticleHole__init__kw false.

Definition UHFWalkersParticleHole_build
    (self : UHFWalkersParticleHole C) (trial : Trial C)
  : UHFWalkersParticleHole C :=
  {| ph_base := ph_base self;
     ph_ndets := ph_ndets self;
     G0a := G0a self; G0b := G0b self; Q0a := Q0a self; Q0b := Q0b self;
     CIa := Some (zeros3 (nwalkers (ph_base self)) (nact trial)
                    (nocc_alpha trial));
     CIb := Some (zeros3 (nwalkers (ph_base self)) (nact trial)
                    (nocc_beta trial)) |}.

(** [UHFWalkersParticleHoleNaive.__init__] with its keyword argument
    [verbose]; the same read of [self.ot] under [verbose]. *)
Definition UHFWalkersParticleHoleNaive__init__kw (verbose : bool)
    (cfg : BaseConfig C) (initial_walker : ndarray C)
    (nup ndown nbasis num_walkers_local num_walkers_global num_steps : nat)
    (ndets : nat)
  : result (UHFWalkersParticleHoleNaive C) :=
  self ← UHFWalkers__init__ cfg initial_walker nup ndown nbasis
            num_walkers_local num_walkers_global num_steps;
  _ ← (if verbose then raise AttributeError else ok ());
  let N := nwalkers self in
  let nb := attr_nbasis self in
  ok {| phn_base := self;
        phn_ndets := ndets;
        det_weights := zeros2 N ndets;
        det_ovlpas := zeros2 N ndets;
        det_ovlpbs := zeros2 N ndets;
        Gia := zeros4 N ndets nb nb;
        Gib := zeros4 N ndets nb nb;
        Gihalfa := zeros4 N ndets (attr_nup self) nb;
        Gihalfb := zeros4 N ndets (attr_ndown self) nb |}.

(** The call that leaves [verbose] at its default, [False]. *)
Definition UHFWalkersParticleHoleNaive__init__ :=
  UHFWalkersParticleHoleNaive__init__kw false.

(** [UHFWalkersParticleHoleNaive.build]: returns at once. *)
Definition UHFWalkersParticleHoleNaive_build
    (self : UHFWalkersParticleHoleNaive C) (trial : Trial C)
  : UHFWalkersParticleHoleNaive C := self.
End Subclasses.

(** ** Re-orthonormalisation *)

Section Reortho.
Context {C : Type} `{Backend C}.

(** The object with its five mutable attributes replaced. *)
Definition with_state (self : UHFWalkers C)
    (pa pb : list (matrix C)) (d l o : list C) : UHFWalkers C :=
  {| nup := nup self; ndown := ndown self;
     nwalkers := nwalkers self; ntot_walkers := ntot_walkers self;
     ovlp := o; detR := d; log_detR := l;
     detR_shift := detR_shift self;
     buff_names := buff_names self;
     nbasis := nbasis self;
     field_configs := field_configs self;
     phia := pa; phib := pb;
     Ga := Ga self; Gb := Gb self;
     Ghalfa := Ghalfa self; Ghalfb := Ghalfb self;
     buff_size := buff_size self;
     walker_buffer := walker_buffer self;
     rhf := rhf self |}.

Definition set_phia (pa : list (matrix C)) (self : UHFWalkers C) :=
  with_state self pa (phib self) (detR self) (log_detR self) (ovlp self).
Definition set_phib (pb : list (matrix C)) (self : UHFWalkers C) :=
  with_state self (phia self) pb (detR self) (log_detR self) (ovlp self).
Definition set_detR (d : list C) (self : UHFWalkers C) :=
  with_state self (phia self) (phib self) d (log_detR self) (ovlp self).
Definition set_log_detR (l : list C) (self : UHFWalkers C) :=
  with_state self (phia self) (phib self) (detR self) l (ovlp self).
Definition set_ovlp (o : list C) (self : UHFWalkers C) :=
  with_state self (phia self) (phib self) (detR self) (log_detR self) o.

(** [xp.log(xp.abs(d))] on a vector, entry by entry. *)
Definition log_abs (d : list C) : list C := xp_log <$> (xp_abs <$> d).

(** The decomposition and the sign fix of one orbital matrix, as the
    loop of [reortho] does them on the slot [iw] of [phi]: the slot
    first receives [Q], then the product of what it holds with
    [diag(sign(diag R))].  Returns the new array and [diag R]. *)
Definition qr_sign_fix (phi : list (matrix C)) (iw : nat)
  : result (list (matrix C) * list C) :=
  m ← getitem phi iw;
  '(Q, R) ← qr m;
  phi ← setitem phi iw Q;
  let R_diag := diag_of R in
  let signs := xp_sign <$> R_diag in
  q ← getitem phi iw;
  p ← dot q (diag_mat signs);
  phi ← setitem phi iw p;
  ok (phi, R_diag).

(** The body of the loop of [reortho] for the walker [iw]; [detR_acc]
    is the local list [detR]. *)
Definition reortho_walker (self : UHFWalkers C) (detR_acc : list C)
    (iw : nat) : result (UHFWalkers C * list C) :=
  '(pa, Rup_diag) ← qr_sign_fix (phia self) iw;
  let self := set_phia pa self in
  let log_det := xp_sum (log_abs Rup_diag) in
  '(self, log_det) ←
    (if decide (0 < ndown self) then
       '(pb, Rdn_diag) ← qr_sign_fix (phib self) iw;
       ok (set_phib pb self, cadd log_det (py_sum (log_abs Rdn_diag)))
     else ok (self, log_det));
  shift ← getitem (detR_shift self) iw;
  let detR_acc := detR_acc ++ [xp_exp (csub log_det shift)] in
  d ← getitem detR_acc iw;
  l ← getitem (log_detR self) iw;
  let self := set_log_detR (<[iw := cadd l (xp_log d)]> (log_detR self)) self in
  _ ← getitem (detR self) iw;
  let self := set_detR (<[iw := d]> (detR self)) self in
  o ← getitem (ovlp self) iw;
  let self := set_ovlp (<[iw := cdiv o d]> (ovlp self)) self in
  ok (self, detR_acc).

Fixpoint reortho_loop (iws : list nat) (self : UHFWalkers C)
    (detR_acc : list C) : result (UHFWalkers C * list C) :=
  match iws with
  | [] => ok (self, detR_acc)
  | iw :: iws =>
      '(self, detR_acc) ← reortho_walker self detR_acc iw;
      reortho_loop iws self detR_acc
  end.

(** [qr] on the three-dimensional array of all walkers: the
    decomposition of each matrix of the stack; it raises when one of
    them does. *)
Definition qr_stacked (phi : list (matrix C))
  : result (list (matrix C) * list (matrix C)) :=
  QR ← mapM qr phi;
  ok (QR.*1, QR.*2).

(** [reortho_batched]; [use_gpu] is [config.get_option('use_gpu')].
    Returns the object after the call and the returned [self.detR]. *)
Definition reortho_batched (use_gpu : bool) (self : UHFWalkers C)
  : result (UHFWalkers C * list C) :=
  if negb use_gpu then raise AssertionError
  else
    '(Q, Rup) ← qr_stacked (phia self);
    let self := set_phia Q self in
    Rup_diag ← einsum_wii Rup;
    let log_det := (fun d => xp_sum (log_abs d)) <$> Rup_diag in
    '(self, log_det) ←
      (if decide (0 < ndown self) then
         '(Q, Rdn) ← qr_stacked (phib self);
         let self := set_phib Q self in
         Rdn_diag ← einsum_wii Rdn;
         log_det ← iadd log_det ((fun d => xp_sum (log_abs d)) <$> Rdn_diag);
         ok (self, log_det)
       else ok (self, log_det));
    e ← broadcast2 csub log_det (detR_shift self);
    let self := set_detR (xp_exp <$> e) self in
    o ← broadcast2 cdiv (ovlp self) (detR self);
    let self := set_ovlp o self in
    ok (self, detR self).

(** [reortho]: the batched routine under [use_gpu], the loop over the
    walkers otherwise.  Returns the object after the call and the
    returned list of determinants. *)
Definition reortho (use_gpu : bool) (self : UHFWalkers C)
  : result (UHFWalkers C * list C) :=
  if use_gpu then reortho_batched use_gpu self
  else reortho_loop (seq 0 (nwalkers self)) self [].
End Reortho.

(** ** What one call of the engine computes, per walker *)

Section ReorthoSpec.
Context {C : Type} `{Backend C}.

(** The factors [Q] and [R] of [m], where the decomposition returns. *)
Definition qr_Q (m : matrix C) : matrix C :=
  match qr m with
  | inr (Q, _) => Q
  | inl _ => []
  end.
Definition qr_R (m : matrix C) : matrix C :=
  match qr m with
  | inr (_, R) => R
  | inl _ => []
  end.

(** [Q . diag(sign(diag R))] for the decomposition [(Q, R)] of [m]. *)
Definition sign_fix (m : matrix C) : matrix C :=
  matmul (qr_Q m) (diag_mat (xp_sign <$> diag_of (qr_R m))).

(** [M] has [r] rows of [c] entries. *)
Definition is_matrix (r c : nat) (M : matrix C) : Prop :=
  length M = r ∧ Forall (fun row => length row = c) M.

(** The decomposition of [m] returns, with the factors of the economic
    mode for a matrix that has rows, and no more columns than rows: [Q]
    in the shape of [m], and [R] square, of the order of the columns
    of [m]. *)
Definition qr_economic (m : matrix C) : Prop :=
  0 < nrows m ∧
  ∃ Q R, qr m = ok (Q, R) ∧
         is_matrix (nrows m) (ncols m) Q ∧ is_matrix (ncols m) (ncols m) R.

(** The accumulated [log_det] of walker [i]: the up channel, and the
    down channel when there is one.  The loop adds the down channel
    with Python's [sum], the batched routine with [einsum]. *)
Definition log_det_of (use_gpu : bool) (self : UHFWalkers C) (i : nat)
  : option C :=
  ma ← phia self !! i;
  let up := xp_sum (log_abs (diag_of (qr_R ma))) in
  if decide (0 < ndown self) then
    mb ← phib self !! i;
    let dn := log_abs (diag_of (qr_R mb)) in
    Some (cadd up (if use_gpu then xp_sum dn else py_sum dn))
  else Some up.

(** [exp(log_det - detR_shift[i])]. *)
Definition detR_of (use_gpu : bool) (self : UHFWalkers C) (i : nat)
  : option C :=
  ld ← log_det_of use_gpu self i;
  s ← detR_shift self !! i;
  Some (xp_exp (csub ld s)).

(** Every per-walker array of the batch has one entry per walker; the
    down orbitals are only looked at when there is a down channel. *)
Record well_formed (self : UHFWalkers C) : Prop := {
  wf_phia : length (phia self) = nwalkers self;
  wf_phib : 0 < ndown self → length (phib self) = nwalkers self;
  wf_detR : length (detR self) = nwalkers self;
  wf_log_detR : length (log_detR self) = nwalkers self;
  wf_detR_shift : length (detR_shift self) = nwalkers self;
  wf_ovlp : length (ovlp self) = nwalkers self
}.

(** The decomposition returns its economic factors on every orbital
    matrix of the batch that the engine looks at. *)
Record decomposable (self : UHFWalkers C) : Prop := {
  dec_phia : ∀ i m, phia self !! i = Some m → qr_economic m;
  dec_phib : 0 < ndown self → ∀ i m, phib self !! i = Some m → qr_economic m
}.

(** The state of the loop of [reortho] when the walkers below [k] are
    done, in terms of the object [self0] the call started from. *)
Record loop_inv (self0 self : UHFWalkers C) (acc : list C) (k : nat)
  : Prop := {
  inv_nwalkers : nwalkers self = nwalkers self0;
  inv_ndown : ndown self = ndown self0;
  inv_shift : detR_shift self = detR_shift self0;
  inv_phia : ∀ i, phia self !! i =
    if decide (i < k) then sign_fix <$> phia self0 !! i
    else phia self0 !! i;
  inv_phib : ∀ i, phib self !! i =
    if decide (i < k ∧ 0 < ndown self0) then sign_fix <$> phib self0 !! i
    else phib self0 !! i;
  inv_detR : ∀ i, detR self !! i =
    if decide (i < k) then detR_of false self0 i else detR self0 !! i;
  inv_log_detR : ∀ i, log_detR self !! i =
    if decide (i < k)
    then l ← log_detR self0 !! i; d ← detR_of false self0 i;
         Some (cadd l (xp_log d))
    else log_detR self0 !! i;
  inv_ovlp : ∀ i, ovlp self !! i =
    if decide (i < k)
    then o ← ovlp self0 !! i; d ← detR_of false self0 i; Some (cdiv o d)
    else ovlp self0 !! i;
  inv_acc : ∀ i, acc !! i =
    if decide (i < k) then detR_of false self0 i else None;
  inv_frame : self = with_state self0 (phia self) (phib self) (detR self)
                       (log_detR self) (ovlp self)
}.

(** The state of the loop of [reortho] when it has got through the
    walkers below [k] without raising, whatever the shapes of the
    factors: the ledger of these walkers, and the walkers still to do,
    untouched. *)
Record ledger_inv (self0 self : UHFWalkers C) (acc : list C) (k : nat)
  : Prop := {
  li_ndown : ndown self = ndown self0;
  li_shift : detR_shift self = detR_shift self0;
  li_phia : ∀ i, k ≤ i → phia self !! i = phia self0 !! i;
  li_phib : ∀ i, k ≤ i → phib self !! i = phib self0 !! i;
  li_len_phia : length (phia self) = length (phia self0);
  li_len_phib : length (phib self) = length (phib self0);
  li_detR : ∀ i, detR self !! i =
    if decide (i < k) then detR_of false self0 i else detR self0 !! i;
  li_log_detR : ∀ i, log_detR self !! i =
    if decide (i < k)
    then l ← log_detR self0 !! i; d ← detR_of false self0 i;
         Some (cadd l (xp_log d))
    else log_detR self0 !! i;
  li_ovlp : ∀ i, ovlp self !! i =
    if decide (i < k)
    then o ← ovlp self0 !! i; d ← detR_of false self0 i; Some (cdiv o d)
    else ovlp self0 !! i;
  li_acc : ∀ i, acc !! i =
    if decide (i < k) then detR_of false self0 i else None;
  li_done : ∀ i, i < k →
    is_Some (detR_of false self0 i) ∧ is_Some (log_detR self0 !! i) ∧
    is_Some (ovlp self0 !! i);
  li_frame : self = with_state self0 (phia self) (phib self) (detR self)
                      (log_detR self) (ovlp self)
}.

(** What the batched routine leaves behind. *)
Record batched_post (self self' : UHFWalkers C) (dets : list C) : Prop := {
  bp_nwalkers : nwalkers self' = nwalkers self;
  bp_ndown : ndown self' = ndown self;
  bp_shift : detR_shift self' = detR_shift self;
  bp_phia : phia self' = qr_Q <$> phia self;
  bp_phib : phib self' =
    if decide (0 < ndown self) then qr_Q <$> phib self
    else phib self;
  bp_detR : ∀ i, detR self' !! i = detR_of true self i;
  bp_log_detR : log_detR self' = log_detR self;
  bp_ovlp : ∀ i, ovlp self' !! i =
    o ← ovlp self !! i; d ← detR_of true self i; Some (cdiv o d);
  bp_dets : dets = detR self';
  bp_frame : self' = with_state self (phia self') (phib self') (detR self')
                       (log_detR self') (ovlp self')
}.
End ReorthoSpec.

(** ** The claims of the specification that the code does not meet as
       they are worded *)

Section AsStated.
Context {C : Type} `{Backend C}.


(** §4.1 as worded: construction fails when [n_up] and [n_down] do not
    add up to the number of columns of the initial matrix. *)
Definition partition_checked_as_stated (cfg : BaseConfig C)
    (initial_walker : ndarray C)
    (nup ndown nbasis num_walkers_local num_walkers_global num_steps : nat)
  : Prop :=
  ∀ r c, shape initial_walker = [r; c] → nup + ndown ≠ c →
    ∃ e, UHFWalkers__init__ cfg initial_walker nup ndown nbasis
           num_walkers_local num_walkers_global num_steps = raise e.
End AsStated.

(** ** The backend on real data

    [complex128] values with zero imaginary part, in exact arithmetic.
    [qr_factors] is the decomposition of an upper-triangular square
    matrix: no reflection is applied, [Q] is the identity and [R] the
    matrix itself, whatever the signs on its diagonal, and the routine
    does not raise.  The instance is meant for such inputs (every matrix
    with a single entry is one). *)
Module RealData.
Local Open Scope R_scope.

Definition Rsign (x : R) : R :=
  if Rlt_dec 0 x then 1 else if Rlt_dec x 0 then -1 else 0.

Definition eye (n : nat) : matrix R :=
  (fun i => <[i := 1]> (replicate n 0)) <$> seq 0 n.

Definition qr_upper (a : matrix R) : option (matrix R * matrix R) :=
  Some (eye (length a), a).

(** [numpy.hstack] on arrays of one or two dimensions. *)
Definition hstack_R (a b : ndarray R) : result (ndarray R) :=
  match shape a, shape b with
  | [n1], [n2] => ok (NDArray [(n1 + n2)%nat] (data a ++ data b))
  | [r1; c1], [r2; c2] =>
      if decide (r1 = r2)
      then ok (NDArray [r1; (c1 + c2)%nat]
                 (concat (zip_with app (rows_of r1 c1 (data a))
                                       (rows_of r2 c2 (data b)))))
      else raise ValueError
  | _, _ => raise ValueError
  end.

#[global] Instance real_backend : Backend R := {|
  czero := 0; cone := 1;
  cadd := Rplus; csub := Rminus; cmul := Rmult; cdiv := Rdiv;
  xp_exp := Rtrigo_def.exp; xp_log := ln; xp_abs := Rabs;
  xp_sign := Rsign;
  qr_factors := qr_upper; hstack := hstack_R
|}.

(** A ledger that starts from overlap and determinant one, logarithm
    and shift zero, and a base class that registers its ledger. *)
Definition cfg0 : BaseConfig R := {|
  ovlp0 := fun _ => 1; detR0 := fun _ => 1;
  log_detR0 := fun _ => 0; detR_shift0 := fun _ => 0;
  base_buff_names := ["ovlp"; "detR"; "log_detR"; "detR_shift"]
|}.

(** The one-by-one initial matrix [[-2]]. *)
Definition iw0 : ndarray R := NDArray [1%nat; 1%nat] [-2].

(** The batch of one walker built from [iw0] with one up orbital and no
    down orbital. *)
Definition batch0 : UHFWalkers R := {|
  nup := 1; ndown := 0; nwalkers := 1; ntot_walkers := 1;
  ovlp := [1]; detR := [1]; log_detR := [0]; detR_shift := [0];
  buff_names := ["ovlp"; "detR"; "log_detR"; "detR_shift"; "phia, phib"];
  nbasis := 1;
  field_configs := None;
  phia := [[[-2]]]; phib := [[[]]];
  Ga := [[[0]]]; Gb := [[[0]]]; Ghalfa := [[[0]]]; Ghalfb := [[]];
  buff_size := 4;
  walker_buffer := [0; 0; 0; 0];
  rhf := false
|}.

(** [batch0] after one call of [reortho] in the loop mode. *)
Definition batch1 : UHFWalkers R :=
  with_state batch0 [[[-1]]] [[[]]] [2] [ln 2] [/ 2].

(** [batch1] after a second call in the loop mode. *)
Definition batch2 : UHFWalkers R :=
  with_state batch0 [[[-1]]] [[[]]] [1] [ln 2] [/ 2].

(** [batch0] after one call of [reortho_batched]. *)
Definition batch0_gpu : UHFWalkers R :=
  with_state batch0 [[[1]]] [[[]]] [2] [0] [/ 2].






(** A two-by-two initial matrix and a trial object of each kind. *)
Definition iw22 : ndarray R := NDArray [2%nat; 2%nat] [1; 2; 3; 4].

(** A two-by-four initial matrix whose two blocks of two columns are
    upper triangular. *)
Definition iw24 : ndarray R :=
  NDArray [2%nat; 4%nat] [1; 2; 5; 6; 0; 3; 0; 7].

Definition trial_of (K : TrialClass) : Trial R := {|
  trial_class := K;
  trial_bases := [];
  psi := iw22; psi0a := iw22; psi0b := iw22;
  _num_dets_for_trial := 3; nact := 2; nocc_alpha := 1; nocc_beta := 1
|}.

(** A trial of the class [ParticleHoleNaive], for a hierarchy in which
    that class derives from [ParticleHoleWicks]. *)
Definition naive_from_wicks : Trial R := {|
  trial_class := ParticleHoleNaive;
  trial_bases := [ParticleHoleWicks];
  psi := iw22; psi0a := iw22; psi0b := iw22;
  _num_dets_for_trial := 3; nact := 2; nocc_alpha := 1; nocc_beta := 1
|}.
End RealData.

(** ** Arrays in memory

    The constructor copies slices of one array into others, and the
    engine writes into them in place; whether two arrays share storage
    is a matter of the buffers behind them.  An array object is a view:
    the buffer it reads, an offset, its dimensions and its strides, all
    counted in entries.  The memory maps a buffer identifier (a position
    in the list) to the entries of the buffer. *)
Module Store.

Record array := Array {
  buf : nat;
  offset : nat;
  dims : list nat;
  strides : list nat
}.

(** The walker [i] of a stack of [r] by [c] matrices held in the buffer
    [b]: the view that [walker] returns on it. *)
Definition slot (b i r c : nat) : array :=
  Array b (0 + i * (r * c)) [r; c] [c; 1].

Section Memory.
Context {C : Type}.

(** A fresh buffer: its identifier is the next free position. *)
Definition alloc (h : list (list C)) (d : list C) : list (list C) * nat :=
  (h ++ [d], length h).

(** The position in its buffer of the entry [a[i, j]] of a
    two-dimensional array. *)
Definition index2 (a : array) (i j : nat) : option nat :=
  match strides a with
  | [s0; s1] => Some (offset a + i * s0 + j * s1)
  | _ => None
  end.

(** [a[i, j]] on a two-dimensional array. *)
Definition read2 (h : list (list C)) (a : array) (i j : nat) : option C :=
  p ← index2 a i j; d ← h !! buf a; d !! p.

(** The entries of a two-dimensional array, row by row. *)
Definition contents (h : list (list C)) (a : array) : option (matrix C) :=
  match dims a with
  | [r; c] => mapM (fun i => mapM (fun j => read2 h a i j) (seq 0 c)) (seq 0 r)
  | _ => None
  end.

(** [a[:, :n]]: a view on the buffer of [a]. *)
Definition slice_cols_upto (n : nat) (a : array) : option array :=
  match dims a with
  | [r; c] => Some (Array (buf a) (offset a) [r; n `min` c] (strides a))
  | _ => None
  end.

(** [a[:, n:]]: a view on the buffer of [a]. *)
Definition slice_cols_from (n : nat) (a : array) : option array :=
  match dims a, strides a with
  | [r; c], [s0; s1] =>
      Some (Array (buf a) (offset a + (n `min` c) * s1) [r; c - n] (strides a))
  | _, _ => None
  end.

(** [a.copy()]: the entries of [a] in a buffer of their own. *)
Definition copy (h : list (list C)) (a : array)
  : option (list (list C) * array) :=
  m ← contents h a;
  match dims a with
  | [r; c] =>
      let '(h', b) := alloc h (mjoin m) in
      Some (h', Array b 0 [r; c] [c; 1])
  | _ => None
  end.

(** [[slice(a).copy() for iw in range(n)]]. *)
Fixpoint copies (slice : array → option array) (n : nat)
    (h : list (list C)) (a : array) : option (list (list C) * list array) :=
  match n with
  | 0 => Some (h, [])
  | S n =>
      v ← slice a;
      '(h, x) ← copy h v;
      '(h, xs) ← copies slice n h a;
      Some (h, x :: xs)
  end.

(** [numpy.array(l)] on a list of two-dimensional arrays of one shape:
    a three-dimensional array in a buffer of its own. *)
Definition stack (h : list (list C)) (l : list array)
  : option (list (list C) * array) :=
  ms ← mapM (contents h) l;
  match l with
  | [] => let '(h', b) := alloc h [] in Some (h', Array b 0 [0] [1])
  | a :: _ =>
      match dims a with
      | [r; c] =>
          let '(h', b) := alloc h (mjoin ((fun m : matrix C => mjoin m) <$> ms)) in
          Some (h', Array b 0 [length l; r; c] [r * c; c; 1])
      | _ => None
      end
  end.

(** [a[iw]] on a three-dimensional array: a view on the buffer of [a]. *)
Definition walker (a : array) (iw : nat) : option array :=
  match dims a, strides a with
  | [n; r; c], [s0; s1; s2] =>
      if decide (iw < n)
      then Some (Array (buf a) (offset a + iw * s0) [r; c] [s1; s2])
      else None
  | _, _ => None
  end.

(** [a[i, j] = x] on a two-dimensional array. *)
Definition write2 (h : list (list C)) (a : array) (i j : nat) (x : C)
  : list (list C) :=
  match index2 a i j with
  | Some p => alter (fun d => <[p := x]> d) (buf a) h
  | None => h
  end.

(** The two assignments of [UHFWalkers.__init__] that build [phia] and
    [phib] from [initial_walker]. *)
Definition init_orbitals (h : list (list C)) (initial_walker : array)
    (nup nwalkers : nat) : option (list (list C) * array * array) :=
  '(h, la) ← copies (slice_cols_upto nup) nwalkers h initial_walker;
  '(h, phia) ← stack h la;
  '(h, lb) ← copies (slice_cols_from nup) nwalkers h initial_walker;
  '(h, phib) ← stack h lb;
  Some (h, phia, phib).
(** [m] is what the two-dimensional array [a], of [r] rows and [c]
    columns, reads from the memory [h]. *)
Definition reads (h : list (list C)) (a : array) (r c : nat)
    (m : matrix C) : Prop :=
  length m = r ∧
  ∀ i row, m !! i = Some row →
    length row = c ∧ ∀ j x, row !! j = Some x → read2 h a i j = Some x.
End Memory.
End Store.

(** ** Column-wise concatenation

    [numpy.hstack] on two two-dimensional arrays with the same number
    of rows: every row of the first followed by the row of the second. *)
Definition hstack2 {C} (r ca cb : nat) (da db : list C) : ndarray C :=
  NDArray [r; ca + cb]
    (mjoin (zip_with app (rows_of r ca da) (rows_of r cb db))).


(** ** Autocorrelation helpers ([pyqumc/analysis/autocorr.py]) *)

Module Autocorr.

(** The loop of [next_pow_two]: [i] is doubled while it is below [n].
    Python integers are unbounded; [fuel] bounds the number of rounds,
    and [None] means the bound was reached. *)
Fixpoint next_pow_two_loop (fuel : nat) (i n : Z) : option Z :=
  if decide (i < n)%Z then
    match fuel with
    | 0 => None
    | S fuel => next_pow_two_loop fuel (Z.shiftl i 1) n
    end
  else Some i.

Definition next_pow_two (fuel : nat) (n : Z) : option Z :=
  next_pow_two_loop fuel 1 n.

(** [numpy.any] of a boolean array. *)
Definition np_any (m : list bool) : bool := existsb (fun b => b) m.

(** [numpy.argmin] of a non-empty boolean array: the first position of
    the smallest entry, that is of the first [False], or 0 when every
    entry is [True]. *)
Definition np_argmin (m : list bool) : nat :=
  match list_find (fun b => b = false) m with
  | Some (i, _) => i
  | None => 0
  end.

Section AutoWindow.
(** The samples are floating-point numbers; [mul] is their product and
    [below i x] the comparison [i < x] of an index with a sample. *)
Context {T : Type} (mul : T → T → T) (below : nat → T → bool).

(** [numpy.arange(len(taus)) < c * taus]. *)
Definition window_mask (taus : list T) (c : T) : list bool :=
  imap (fun i tau => below i (mul c tau)) taus.

Definition auto_window (taus : list T) (c : T) : Z :=
  let m := window_mask taus c in
  if np_any m then Z.of_nat (np_argmin m)
  else (Z.of_nat (length taus) - 1)%Z.
End AutoWindow.
End Autocorr.

(** * Properties *)

(** ** Fallible computations and list updates *)

Lemma getitem_Some {A} (l : list A) i x : l !! i = Some x → getitem l i = ok x.
Proof. intros E. unfold getitem. by rewrite E. Qed.


Lemma bind_ok {A B} (a : A) (k : A → result B) : (ok a ≫= k) = k a.
Proof. reflexivity. Qed.

Lemma lookup_insert_cases {A} (l : list A) i j x y :
  l !! i = Some y →
  <[i := x]> l !! j = if decide (j = i) then Some x else l !! j.
Proof.
  intros E. case_decide as Hj.
  - subst j. apply list_lookup_insert_eq. by eapply lookup_lt_Some.
  - by apply list_lookup_insert_ne.
Qed.

Lemma length_from_lookups {A} (l : list A) n :
  (∀ i, i < n → is_Some (l !! i)) → (∀ i, ¬ i < n → l !! i = None) →
  length l = n.
Proof.
  intros Hs Hn. apply Nat.le_antisymm.
  - apply Nat.nlt_ge. intros Hlt.
    specialize (Hn n ltac:(lia)). apply lookup_ge_None_1 in Hn. lia.
  - apply Nat.nlt_ge. intros Hlt.
    destruct (Hs (length l) Hlt) as [x Hx].
    apply lookup_lt_Some in Hx. lia.
Qed.

Lemma bind_inv {A B} (m : result A) (k : A → result B) b :
  (m ≫= k) = ok b → ∃ a, m = ok a ∧ k a = ok b.
Proof. destruct m as [e|a]; simpl; [done|]. by exists a. Qed.

Lemma mapM_ok {A B} (f : A → result B) (g : A → B) (l : list A) :
  (∀ x, x ∈ l → f x = ok (g x)) → mapM f l = ok (g <$> l).
Proof.
  induction l as [|x l IH]; intros Hf; [done|]. simpl.
  rewrite (Hf x) by left. rewrite bind_ok, IH; [done|].
  intros y Hy. apply Hf. by right.
Qed.

Lemma mapM_raise {A B} (f : A → result B) (e0 : Exception) (l : list A) e :
  (∀ x e, f x = raise e → e = e0) → mapM f l = raise e → e = e0.
Proof.
  intros Hf. revert e. induction l as [|x l IH]; intros e; simpl; [done|].
  destruct (f x) as [e1|y] eqn:Ex; simpl.
  - intros [= <-]. by apply (Hf x).
  - destruct (mapM f l) as [e2|k]; simpl; [|done].
    intros [= <-]. by apply IH.
Qed.

Lemma mapM_ok_length {A B} (f : A → result B) (l : list A) k :
  mapM f l = ok k → length k = length l.
Proof.
  revert k. induction l as [|x l IH]; intros k; simpl.
  - by intros [= <-].
  - destruct (f x) as [e|y]; simpl; [done|].
    destruct (mapM f l) as [e|k']; simpl; [done|].
    intros [= <-]. simpl. f_equal. by apply IH.
Qed.

Lemma mapM_ok_inv {A B} (f : A → result B) (g : A → B) (l : list A) k :
  (∀ x y, f x = ok y → y = g x) → mapM f l = ok k → k = g <$> l.
Proof.
  intros Hf. revert k. induction l as [|x l IH]; intros k; simpl.
  - by intros [= <-].
  - destruct (f x) as [e|y] eqn:Ex; simpl; [done|].
    destruct (mapM f l) as [e|k'] eqn:El; simpl; [done|].
    intros [= <-]. f_equal; [by apply Hf|by apply IH].
Qed.

(** ** The array library *)

Section ArrayFacts.
Context {C : Type} `{Backend C}.

Lemma is_matrix_nrows r c (M : matrix C) : is_matrix r c M → nrows M = r.
Proof. by intros [? _]. Qed.

Lemma is_matrix_ncols r c (M : matrix C) :
  is_matrix r c M → 0 < r → ncols M = c.
Proof.
  intros [HL HF] Hr. unfold ncols. destruct M as [|row M]; simpl in *; [lia|].
  by inversion HF.
Qed.

Lemma is_matrix_square c (M : matrix C) :
  is_matrix c c M → nrows M = ncols M.
Proof.
  intros HM. destruct (decide (c = 0)) as [->|Hc].
  - destruct HM as [HL _]. by destruct M.
  - rewrite (is_matrix_nrows _ _ _ HM).
    by rewrite (is_matrix_ncols _ _ _ HM) by lia.
Qed.

Lemma stretch_same {A} n (l : list A) : length l = n → stretch n l = l.
Proof. intros E. unfold stretch. by rewrite decide_True. Qed.

Lemma broadcast_to_same r c (M : matrix C) :
  is_matrix r c M → 0 < r → broadcast_to M r c = ok M.
Proof.
  intros HM Hr. unfold broadcast_to.
  rewrite (is_matrix_nrows _ _ _ HM), (is_matrix_ncols _ _ _ HM Hr).
  rewrite decide_True by auto. f_equal.
  destruct HM as [HL HF].
  rewrite stretch_same by (by rewrite length_fmap).
  rewrite <- (list_fmap_id M) at 2. apply Forall_fmap_ext_1.
  eapply Forall_impl; [exact HF|]. intros row E. by apply stretch_same.
Qed.

(** Assigning to a slot a matrix of the slot's own shape stores it. *)
Lemma setitem_same (a : list (matrix C)) iw (slot M : matrix C) :
  a !! iw = Some slot → 0 < nrows slot →
  is_matrix (nrows slot) (ncols slot) M →
  setitem a iw M = ok (<[iw := M]> a).
Proof.
  intros E Hr HM. unfold setitem.
  rewrite (getitem_Some _ _ _ E), bind_ok.
  by rewrite (broadcast_to_same _ _ _ HM Hr).
Qed.

Lemma length_omap_Some {A} (l : list (option A)) :
  Forall is_Some l → length (omap (fun o => o) l) = length l.
Proof.
  induction 1 as [|o l [x ->] _ IH]; [done|]. simpl. f_equal. exact IH.
Qed.

Lemma length_diag_of c (M : matrix C) :
  is_matrix c c M → length (diag_of M) = c.
Proof.
  intros [HL HF]. unfold diag_of.
  rewrite length_omap_Some; [by rewrite length_imap|].
  apply Forall_lookup. intros i o. rewrite list_lookup_imap.
  destruct (M !! i) as [row|] eqn:E; simpl; [|done]. intros [= <-].
  apply lookup_lt_is_Some.
  rewrite (proj1 (Forall_lookup _ _) HF i row E).
  apply lookup_lt_Some in E. lia.
Qed.

Lemma diag_mat_is_matrix (v : list C) :
  is_matrix (length v) (length v) (diag_mat v).
Proof.
  split; unfold diag_mat; [by rewrite length_imap|].
  apply Forall_lookup. intros i row. rewrite list_lookup_imap.
  destruct (v !! i); simpl; [|done]. intros [= <-].
  unfold zeros1. by rewrite length_insert, length_replicate.
Qed.

Lemma length_dot_row c (r : list C) (b : matrix C) :
  is_matrix c c b → length (dot_row r b) = c.
Proof.
  intros Hb. unfold dot_row.
  assert (length (zeros1 (length (hd [] b))) = c) as E0.
  { unfold zeros1. rewrite length_replicate.
    fold (ncols b). rewrite <- (is_matrix_square _ _ Hb).
    by apply is_matrix_nrows in Hb. }
  assert (Forall (fun xb => length xb.2 = c) (zip r b)) as HF.
  { apply Forall_forall. intros [x brow] Hin.
    apply elem_of_zip_r in Hin. destruct Hb as [_ HF].
    by apply (proj1 (Forall_forall _ _) HF). }
  induction HF as [|[x brow] l Hx _ IH]; simpl; [done|].
  rewrite length_zip_with, length_fmap, IH. simpl in Hx. lia.
Qed.

Lemma matmul_is_matrix r c (a b : matrix C) :
  length a = r → is_matrix c c b → is_matrix r c (matmul a b).
Proof.
  intros Ha Hb. split; unfold matmul; [by rewrite length_fmap|].
  apply Forall_fmap, Forall_forall. intros row _. simpl.
  by apply length_dot_row.
Qed.

Lemma qr_Q_R (m Q R : matrix C) :
  qr m = ok (Q, R) → qr_Q m = Q ∧ qr_R m = R.
Proof. intros E. unfold qr_Q, qr_R. by rewrite E. Qed.

Lemma qr_raises (m : matrix C) e : qr m = raise e → e = ValueError.
Proof. unfold qr. destruct (qr_factors m); [done|]. by intros [= <-]. Qed.

Lemma einsum_wii_raises (R : list (matrix C)) e :
  einsum_wii R = raise e → e = ValueError.
Proof.
  apply mapM_raise. intros m e'. case_decide; [done|]. by intros [= <-].
Qed.
End ArrayFacts.

Section ReorthoFacts.
Context {C : Type} `{Backend C}.

Lemma qr_sign_fix_ok (phi : list (matrix C)) iw m :
  phi !! iw = Some m → qr_economic m →
  qr_sign_fix phi iw = ok (<[iw := sign_fix m]> phi, diag_of (qr_R m)).
Proof.
  intros E (Hr & Q & R & EQR & HQ & HR). unfold qr_sign_fix, sign_fix.
  destruct (qr_Q_R _ _ _ EQR) as [-> ->].
  rewrite (getitem_Some _ _ _ E), bind_ok, EQR, bind_ok. cbv beta iota.
  rewrite (setitem_same _ _ _ _ E Hr HQ), bind_ok.
  assert (<[iw := Q]> phi !! iw = Some Q) as EQ.
  { apply list_lookup_insert_eq. by eapply lookup_lt_Some. }
  rewrite (getitem_Some _ _ _ EQ), bind_ok.
  pose proof (length_diag_of _ _ HR) as Ld.
  pose proof (diag_mat_is_matrix (xp_sign <$> diag_of R)) as HD.
  rewrite length_fmap, Ld in HD.
  unfold dot. rewrite (is_matrix_ncols _ _ _ HQ Hr).
  rewrite (is_matrix_nrows _ _ _ HD), decide_True by done.
  rewrite bind_ok.
  rewrite (setitem_same _ _ Q _ EQ).
  - by rewrite bind_ok, list_insert_insert_eq.
  - by rewrite (is_matrix_nrows _ _ _ HQ).
  - rewrite (is_matrix_nrows _ _ _ HQ), (is_matrix_ncols _ _ _ HQ Hr).
    apply matmul_is_matrix; [by apply is_matrix_nrows in HQ | done].
Qed.


Lemma loop_inv_start self0 : loop_inv self0 self0 [] 0.
Proof.
  split; try done; try (intros i; case_decide; try done; lia).
  by destruct self0.
Qed.

Lemma well_formed_lookups (self : UHFWalkers C) i :
  well_formed self → i < nwalkers self →
  is_Some (phia self !! i) ∧ (0 < ndown self → is_Some (phib self !! i)) ∧
  is_Some (detR self !! i) ∧ is_Some (log_detR self !! i) ∧
  is_Some (detR_shift self !! i) ∧ is_Some (ovlp self !! i).
Proof.
  intros [] Hi. repeat split; try intros Hd;
    apply lookup_lt_is_Some; rewrite ?wf_phib0 by done; lia.
Qed.

Lemma reortho_walker_step (self0 self : UHFWalkers C) acc k :
  well_formed self0 → decomposable self0 → k < nwalkers self0 →
  loop_inv self0 self acc k →
  ∃ self' acc', reortho_walker self acc k = ok (self', acc') ∧
                loop_inv self0 self' acc' (S k).
Proof.
  intros Hwf Hdec Hk Inv.
  destruct (well_formed_lookups _ _ Hwf Hk)
    as ([ma Ea] & Eb & [d0 Ed] & [l El] & [s Es] & [o Eo]).
  pose proof (inv_phia _ _ _ _ Inv k) as Ia.
  pose proof (inv_phib _ _ _ _ Inv k) as Ib.
  pose proof (inv_detR _ _ _ _ Inv k) as Id.
  pose proof (inv_log_detR _ _ _ _ Inv k) as Il.
  pose proof (inv_ovlp _ _ _ _ Inv k) as Io.
  rewrite decide_False in Ia by lia. rewrite decide_False in Ib by lia.
  rewrite decide_False in Id by lia. rewrite decide_False in Il by lia.
  rewrite decide_False in Io by lia.
  rewrite Ea in Ia. rewrite Ed in Id. rewrite El in Il. rewrite Eo in Io.
  assert (length acc = k) as Hacc.
  { apply Nat.le_antisymm.
    - apply Nat.nlt_ge. intros Hl. apply lookup_lt_is_Some_2 in Hl as [x Ex].
      rewrite (inv_acc _ _ _ _ Inv), decide_False in Ex by lia. done.
    - apply Nat.nlt_ge. intros Hl.
      assert (acc !! length acc = None) as En by (apply lookup_ge_None; lia).
      rewrite (inv_acc _ _ _ _ Inv), decide_True in En by lia.
      unfold detR_of, log_det_of in En.
      destruct (well_formed_lookups _ (length acc) Hwf ltac:(lia))
        as ([? Ea'] & Eb' & _ & _ & [? Es'] & _).
      rewrite Ea', Es' in En. simpl in En.
      case_decide as Hd; simpl in En; [|done].
      destruct (Eb' Hd) as [? Eb'']. rewrite Eb'' in En. done. }
  pose proof (dec_phia _ Hdec k ma Ea) as Hma.
  set (up := xp_sum (log_abs (diag_of (qr_R ma)))).
  assert (∃ ld pb,
    log_det_of false self0 k = Some ld ∧
    (∀ i, pb !! i = if decide (i < S k ∧ 0 < ndown self0)
                    then sign_fix <$> phib self0 !! i else phib self0 !! i) ∧
    (if decide (0 < ndown (set_phia (<[k:=sign_fix ma]> (phia self)) self))
     then '(pb, Rdn_diag) ← qr_sign_fix
              (phib (set_phia (<[k:=sign_fix ma]> (phia self)) self)) k;
          ok (set_phib pb (set_phia (<[k:=sign_fix ma]> (phia self)) self),
              cadd up (py_sum (log_abs Rdn_diag)))
     else ok (set_phia (<[k:=sign_fix ma]> (phia self)) self, up))
    = ok (with_state self (<[k:=sign_fix ma]> (phia self)) pb
            (detR self) (log_detR self) (ovlp self), ld))
    as (ld & pb & Hld & Hpb & Hdown).
  { unfold log_det_of. rewrite Ea. simpl. fold up.
    rewrite (inv_ndown _ _ _ _ Inv).
    destruct (decide (0 < ndown self0)) as [Hd|Hd].
    - destruct (Eb Hd) as [mb Emb]. rewrite Emb in Ib |- *. simpl.
      eexists _, (<[k:=sign_fix mb]> (phib self)). split; [done|]. split.
      + intros i. rewrite (lookup_insert_cases _ _ _ _ _ Ib).
        rewrite (inv_phib _ _ _ _ Inv i).
        repeat case_decide; subst; try rewrite Emb; try done; lia.
      + rewrite (qr_sign_fix_ok _ _ _ Ib (dec_phib _ Hdec Hd k mb Emb)).
        done.
    - eexists _, (phib self). split; [done|]. split; [|done].
      intros i. rewrite (inv_phib _ _ _ _ Inv i).
      repeat case_decide; try done; lia. }
  unfold reortho_walker.
  rewrite (qr_sign_fix_ok _ _ _ Ia Hma), bind_ok. cbv beta iota. fold up.
  rewrite Hdown, bind_ok. cbv beta iota.
  assert (detR_of false self0 k = Some (xp_exp (csub ld s))) as Hdet.
  { unfold detR_of. rewrite Hld, Es. done. }
  simpl detR_shift. rewrite (inv_shift _ _ _ _ Inv).
  rewrite (getitem_Some _ _ _ Es), bind_ok.
  rewrite (getitem_Some (acc ++ _) k (xp_exp (csub ld s))), bind_ok.
  2:{ rewrite lookup_app_r by lia. by rewrite Hacc, Nat.sub_diag. }
  simpl log_detR. rewrite (getitem_Some _ _ _ Il), bind_ok.
  simpl detR. rewrite (getitem_Some _ _ _ Id), bind_ok.
  simpl ovlp. rewrite (getitem_Some _ _ _ Io), bind_ok.
  eexists _, _. split; [reflexivity|].
  split; simpl; try apply Inv.
  - intros i. rewrite (lookup_insert_cases _ _ _ _ _ Ia).
    rewrite (inv_phia _ _ _ _ Inv i).
    repeat case_decide; subst; try rewrite Ea; try done; lia.
  - done.
  - intros i. rewrite (lookup_insert_cases _ _ _ _ _ Id).
    rewrite (inv_detR _ _ _ _ Inv i).
    repeat case_decide; subst; try done; lia.
  - intros i. rewrite (lookup_insert_cases _ _ _ _ _ Il).
    rewrite (inv_log_detR _ _ _ _ Inv i).
    repeat case_decide; subst; try (rewrite El, Hdet); try done; lia.
  - intros i. rewrite (lookup_insert_cases _ _ _ _ _ Io).
    rewrite (inv_ovlp _ _ _ _ Inv i).
    repeat case_decide; subst; try (rewrite Eo, Hdet); try done; lia.
  - intros i. destruct (decide (i < k)) as [Hi|Hi].
    + rewrite lookup_app_l by lia. rewrite (inv_acc _ _ _ _ Inv i).
      rewrite decide_True by lia. by rewrite decide_True by lia.
    + rewrite lookup_app_r by lia. rewrite Hacc.
      destruct (decide (i = k)) as [->|Hne].
      * rewrite Nat.sub_diag. simpl. by rewrite decide_True by lia.
      * rewrite decide_False by lia.
        destruct (i - k) as [|n] eqn:En; [lia|done].
  - rewrite (inv_frame _ _ _ _ Inv). done.
Qed.
End ReorthoFacts.

Section ReorthoModes.
Context {C : Type} `{Backend C}.

Lemma reortho_loop_inv (self0 : UHFWalkers C) :
  well_formed self0 → decomposable self0 →
  ∀ n k self acc,
    k + n = nwalkers self0 → loop_inv self0 self acc k →
    ∃ self' acc', reortho_loop (seq k n) self acc = ok (self', acc') ∧
                  loop_inv self0 self' acc' (nwalkers self0).
Proof.
  intros Hwf Hdec. induction n as [|n IH]; intros k self acc Hk Inv; simpl.
  - replace (nwalkers self0) with k by lia. eauto.
  - destruct (reortho_walker_step self0 self acc k Hwf Hdec ltac:(lia) Inv)
      as (self1 & acc1 & E1 & Inv1).
    rewrite E1, bind_ok. apply (IH (S k)); [lia | done].
Qed.

(** The loop mode on a well-formed batch whose matrices decompose: the
    call returns, and the returned object is described by [loop_inv] at
    the last walker. *)
Lemma reortho_loop_mode (self : UHFWalkers C) :
  well_formed self → decomposable self →
  ∃ self' dets, reortho false self = ok (self', dets) ∧
                loop_inv self self' dets (nwalkers self).
Proof.
  intros Hwf Hdec. unfold reortho.
  apply (reortho_loop_inv self Hwf Hdec (nwalkers self) 0 self []); [lia|].
  apply loop_inv_start.
Qed.


Lemma broadcast2_same_length (f : C → C → C) a b :
  length a = length b → broadcast2 f a b = ok (zip_with f a b).
Proof. intros E. unfold broadcast2. by rewrite decide_True. Qed.

Lemma iadd_same_length (a b : list C) :
  length a = length b → iadd a b = ok (zip_with cadd a b).
Proof. intros E. unfold iadd. by rewrite decide_True. Qed.

Lemma lookup_exp_sub (self : UHFWalkers C) (ld : list C) :
  (∀ i, ld !! i = log_det_of true self i) →
  ∀ i, (xp_exp <$> zip_with csub ld (detR_shift self)) !! i
       = detR_of true self i.
Proof.
  intros Hld i. rewrite list_lookup_fmap, lookup_zip_with, Hld.
  unfold detR_of. destruct (log_det_of true self i); simpl; [|done].
  destruct (detR_shift self !! i); done.
Qed.

Lemma qr_stacked_ok (phi : list (matrix C)) :
  (∀ i m, phi !! i = Some m → qr_economic m) →
  qr_stacked phi = ok (qr_Q <$> phi, qr_R <$> phi) ∧
  einsum_wii (qr_R <$> phi) = ok (diag_of <$> (qr_R <$> phi)).
Proof.
  intros Hphi. split.
  - unfold qr_stacked.
    rewrite (mapM_ok qr (fun m => (qr_Q m, qr_R m))).
    + rewrite bind_ok. by rewrite <- !list_fmap_compose.
    + intros m Hm. apply list_elem_of_lookup in Hm as [i Hm].
      destruct (Hphi i m Hm) as (_ & Q & R & E & _).
      by destruct (qr_Q_R _ _ _ E) as [-> ->].
  - unfold einsum_wii.
    rewrite (mapM_ok _ diag_of); [done|].
    intros R HR. apply list_elem_of_fmap in HR as (m & -> & Hm).
    apply list_elem_of_lookup in Hm as [i Hm].
    destruct (Hphi i m Hm) as (_ & Q & R & E & _ & HR).
    destruct (qr_Q_R _ _ _ E) as [_ ->].
    by rewrite decide_True by by eapply is_matrix_square.
Qed.

Lemma reortho_batched_mode (self : UHFWalkers C) :
  well_formed self → decomposable self →
  ∃ self' dets, reortho_batched true self = ok (self', dets) ∧
                batched_post self self' dets.
Proof.
  intros Hwf Hdec. unfold reortho_batched. simpl negb. cbv iota.
  destruct (qr_stacked_ok _ (dec_phia _ Hdec)) as [-> Ea].
  rewrite bind_ok. cbv beta iota. rewrite Ea, bind_ok.
  simpl ndown.
  pose proof (wf_phia _ Hwf) as La. pose proof (wf_detR_shift _ Hwf) as Ls.
  pose proof (wf_ovlp _ Hwf) as Lo.
  destruct (decide (0 < ndown self)) as [Hd|Hd].
  - pose proof (wf_phib _ Hwf Hd) as Lb.
    simpl phib.
    destruct (qr_stacked_ok _ (dec_phib _ Hdec Hd)) as [-> Eb].
    rewrite bind_ok. cbv beta iota. rewrite Eb, bind_ok.
    rewrite iadd_same_length by (rewrite !length_fmap; lia).
    rewrite !bind_ok. cbv beta iota. simpl detR_shift.
    rewrite broadcast2_same_length
      by (rewrite length_zip_with, !length_fmap; lia).
    rewrite bind_ok. simpl ovlp. simpl detR.
    rewrite broadcast2_same_length
      by (rewrite length_fmap, !length_zip_with, !length_fmap; lia).
    rewrite bind_ok. eexists _, _. split; [reflexivity|].
    assert (∀ i, zip_with cadd
        ((λ d, xp_sum (log_abs d)) <$> (diag_of <$> (qr_R <$> phia self)))
        ((λ d, xp_sum (log_abs d)) <$> (diag_of <$> (qr_R <$> phib self)))
          !! i
        = log_det_of true self i) as Hld.
    { intros i. rewrite lookup_zip_with, !list_lookup_fmap.
      unfold log_det_of.
      destruct (phia self !! i) as [ma|]; simpl; [|done].
      rewrite decide_True by done.
      destruct (phib self !! i) as [mb|]; simpl; done. }
    split; simpl; try done.
    + by rewrite decide_True.
    + by apply lookup_exp_sub.
    + intros i. rewrite lookup_zip_with, (lookup_exp_sub _ _ Hld).
      destruct (ovlp self !! i); simpl; [|done].
      destruct (detR_of true self i); done.
  - rewrite !bind_ok. cbv beta iota. simpl detR_shift.
    rewrite broadcast2_same_length by (rewrite !length_fmap; lia).
    rewrite bind_ok. simpl ovlp. simpl detR.
    rewrite broadcast2_same_length
      by (rewrite length_fmap, !length_zip_with, !length_fmap; lia).
    rewrite bind_ok. eexists _, _. split; [reflexivity|].
    assert (∀ i,
        ((λ d, xp_sum (log_abs d)) <$> (diag_of <$> (qr_R <$> phia self)))
          !! i
        = log_det_of true self i) as Hld.
    { intros i. rewrite !list_lookup_fmap.
      unfold log_det_of.
      destruct (phia self !! i) as [ma|]; simpl; [|done].
      by rewrite decide_False. }
    split; simpl; try done.
    + by rewrite decide_False.
    + by apply lookup_exp_sub.
    + intros i. rewrite lookup_zip_with, (lookup_exp_sub _ _ Hld).
      destruct (ovlp self !! i); simpl; [|done].
      destruct (detR_of true self i); done.
Qed.
End ReorthoModes.

(** ** What holds of every call that returns *)

Section ReorthoReturns.
Context {C : Type} `{Backend C}.

Lemma qr_stacked_inv (phi : list (matrix C)) Q R :
  qr_stacked phi = ok (Q, R) → Q = qr_Q <$> phi ∧ R = qr_R <$> phi.
Proof.
  unfold qr_stacked. intros E. apply bind_inv in E as (QR & E & [= <- <-]).
  apply (mapM_ok_inv qr (fun m => (qr_Q m, qr_R m))) in E.
  - subst QR. by rewrite <- !list_fmap_compose.
  - intros m [Q R] Em. by destruct (qr_Q_R _ _ _ Em) as [-> ->].
Qed.

Lemma einsum_wii_inv (R : list (matrix C)) d :
  einsum_wii R = ok d → d = diag_of <$> R.
Proof.
  apply mapM_ok_inv. intros m y. case_decide; [|done]. by intros [= <-].
Qed.

Lemma setitem_inv (a : list (matrix C)) iw x a' :
  setitem a iw x = ok a' →
  is_Some (a !! iw) ∧ ∃ y, a' = <[iw := y]> a.
Proof.
  unfold setitem, getitem. destruct (a !! iw) as [slot|]; simpl; [|done].
  destruct (broadcast_to x (nrows slot) (ncols slot)) as [e|y]; simpl; [done|].
  intros [= <-]. split; [done|]. by exists y.
Qed.

Lemma qr_sign_fix_inv (phi : list (matrix C)) k phi' Rd :
  qr_sign_fix phi k = ok (phi', Rd) →
  ∃ m, phi !! k = Some m ∧ Rd = diag_of (qr_R m) ∧
       length phi' = length phi ∧
       ∀ j, j ≠ k → phi' !! j = phi !! j.
Proof.
  unfold qr_sign_fix. intros E.
  apply bind_inv in E as (m & Em & E).
  unfold getitem in Em. destruct (phi !! k) as [m'|] eqn:Ek; [|done].
  injection Em as ->.
  apply bind_inv in E as ([Q R] & EQR & E). cbv beta iota in E.
  apply bind_inv in E as (phi1 & E1 & E).
  apply bind_inv in E as (q & _ & E).
  apply bind_inv in E as (p & _ & E).
  apply bind_inv in E as (phi2 & E2 & E).
  injection E as <- <-.
  apply setitem_inv in E1 as (_ & y1 & ->).
  apply setitem_inv in E2 as (_ & y2 & ->).
  exists m. split; [done|].
  destruct (qr_Q_R _ _ _ EQR) as [_ ->].
  split; [done|]. split; [by rewrite !length_insert|].
  intros j Hj. by rewrite !list_lookup_insert_ne.
Qed.

Lemma ledger_inv_start self0 : ledger_inv self0 self0 [] 0.
Proof.
  split; try done; try (intros i; case_decide; try done; lia).
  - intros i Hi. lia.
  - by destruct self0.
Qed.

Lemma ledger_inv_length_acc self0 self acc k :
  ledger_inv self0 self acc k → length acc = k.
Proof.
  intros Inv. apply length_from_lookups; intros i Hi;
    rewrite (li_acc _ _ _ _ Inv).
  - rewrite decide_True by done. by apply (li_done _ _ _ _ Inv).
  - by rewrite decide_False.
Qed.

Lemma reortho_walker_ledger (self0 self : UHFWalkers C) acc k self' acc' :
  reortho_walker self acc k = ok (self', acc') →
  ledger_inv self0 self acc k →
  ledger_inv self0 self' acc' (S k).
Proof.
  intros E Inv. pose proof (ledger_inv_length_acc _ _ _ _ Inv) as Hacc.
  unfold reortho_walker in E.
  apply bind_inv in E as ([pa Rup] & E1 & E).
  apply qr_sign_fix_inv in E1 as (ma & Ema & -> & Lpa & Hpa).
  cbv beta iota zeta in E.
  set (up := xp_sum (log_abs (diag_of (qr_R ma)))) in E.
  apply bind_inv in E as ([s1 ld] & E2 & E).
  assert (∃ pb, s1 = with_state self pa pb (detR self) (log_detR self)
                       (ovlp self) ∧
                log_det_of false self0 k = Some ld ∧
                length pb = length (phib self) ∧
                ∀ j, j ≠ k → pb !! j = phib self !! j)
    as (pb & -> & Hld & Lpb & Hpb).
  { rewrite (li_phia _ _ _ _ Inv k) in Ema by lia.
    unfold log_det_of. rewrite Ema. simpl. fold up.
    simpl ndown in E2. rewrite (li_ndown _ _ _ _ Inv) in E2.
    destruct (decide (0 < ndown self0)) as [Hd|Hd].
    - apply bind_inv in E2 as ([pb Rdn] & E2 & [= <- <-]).
      simpl phib in E2.
      apply qr_sign_fix_inv in E2 as (mb & Emb & -> & Lpb & Hpb).
      rewrite (li_phib _ _ _ _ Inv k) in Emb by lia. rewrite Emb. simpl.
      exists pb. done.
    - injection E2 as <- <-. exists (phib self). done. }
  cbv beta iota in E. simpl detR_shift in E.
  apply bind_inv in E as (s & Es & E).
  apply bind_inv in E as (d & Ed & E).
  simpl log_detR in E. apply bind_inv in E as (l & El & E).
  simpl detR in E. apply bind_inv in E as (d0 & Ed0 & E).
  simpl ovlp in E. apply bind_inv in E as (o & Eo & E).
  injection E as <- <-.
  unfold getitem in Es, Ed, El, Ed0, Eo.
  destruct (detR_shift self !! k) as [s'|] eqn:Es'; [|done]. injection Es as ->.
  destruct (log_detR self !! k) as [l'|] eqn:El'; [|done]. injection El as ->.
  destruct (detR self !! k) as [d0'|] eqn:Ed0'; [|done]. injection Ed0 as ->.
  destruct (ovlp self !! k) as [o'|] eqn:Eo'; [|done]. injection Eo as ->.
  rewrite lookup_app_r in Ed by lia.
  rewrite Hacc, Nat.sub_diag in Ed. simpl in Ed. injection Ed as <-.
  rewrite (li_shift _ _ _ _ Inv) in Es'.
  assert (detR_of false self0 k = Some (xp_exp (csub ld s))) as Hdet.
  { unfold detR_of. rewrite Hld, Es'. done. }
  pose proof El' as El0. rewrite (li_log_detR _ _ _ _ Inv) in El0.
  rewrite decide_False in El0 by lia.
  pose proof Eo' as Eo0. rewrite (li_ovlp _ _ _ _ Inv) in Eo0.
  rewrite decide_False in Eo0 by lia.
  split; simpl.
  - apply Inv.
  - apply Inv.
  - intros i Hi. rewrite Hpa by lia. apply (li_phia _ _ _ _ Inv). lia.
  - intros i Hi. rewrite Hpb by lia. apply (li_phib _ _ _ _ Inv). lia.
  - rewrite Lpa. apply Inv.
  - rewrite Lpb. apply Inv.
  - intros i. rewrite (lookup_insert_cases _ _ _ _ _ Ed0').
    rewrite (li_detR _ _ _ _ Inv i).
    repeat case_decide; subst; try done; lia.
  - intros i. rewrite (lookup_insert_cases _ _ _ _ _ El').
    rewrite (li_log_detR _ _ _ _ Inv i).
    repeat case_decide; subst; try (rewrite El0, Hdet); try done; lia.
  - intros i. rewrite (lookup_insert_cases _ _ _ _ _ Eo').
    rewrite (li_ovlp _ _ _ _ Inv i).
    repeat case_decide; subst; try (rewrite Eo0, Hdet); try done; lia.
  - intros i. destruct (decide (i < k)) as [Hi|Hi].
    + rewrite lookup_app_l by lia. rewrite (li_acc _ _ _ _ Inv i).
      rewrite decide_True by lia. by rewrite decide_True by lia.
    + rewrite lookup_app_r by lia. rewrite Hacc.
      destruct (decide (i = k)) as [->|Hne].
      * rewrite Nat.sub_diag. simpl. by rewrite decide_True by lia.
      * rewrite decide_False by lia.
        destruct (i - k) as [|n] eqn:En; [lia|done].
  - intros i Hi. destruct (decide (i = k)) as [->|Hne].
    + rewrite Hdet, El0, Eo0. done.
    + apply (li_done _ _ _ _ Inv). lia.
  - rewrite (li_frame _ _ _ _ Inv). done.
Qed.

Lemma reortho_loop_ledger (self0 : UHFWalkers C) :
  ∀ n k self acc self' acc',
    reortho_loop (seq k n) self acc = ok (self', acc') →
    ledger_inv self0 self acc k →
    ledger_inv self0 self' acc' (k + n).
Proof.
  induction n as [|n IH]; intros k self acc self' acc' E Inv; simpl in E.
  - injection E as <- <-. by rewrite Nat.add_0_r.
  - apply bind_inv in E as ([s1 a1] & E1 & E).
    replace (k + S n) with (S k + n) by lia.
    eapply IH; [exact E|]. by eapply reortho_walker_ledger.
Qed.


Lemma reortho_batched_post (self self' : UHFWalkers C) dets :
  well_formed self →
  reortho_batched true self = ok (self', dets) →
  batched_post self self' dets.
Proof.
  intros Hwf E. unfold reortho_batched in E. simpl negb in E. cbv iota in E.
  apply bind_inv in E as ([Q Rup] & Ea & E).
  apply qr_stacked_inv in Ea as [-> ->]. cbv beta iota in E.
  apply bind_inv in E as (Rd & Eda & E).
  apply einsum_wii_inv in Eda as ->.
  apply bind_inv in E as ([s1 ld] & E2 & E).
  simpl ndown in E2.
  pose proof (wf_phia _ Hwf) as La. pose proof (wf_detR_shift _ Hwf) as Ls.
  pose proof (wf_ovlp _ Hwf) as Lo.
  assert (s1 = with_state self (qr_Q <$> phia self)
                 (if decide (0 < ndown self) then qr_Q <$> phib self
                  else phib self)
                 (detR self) (log_detR self) (ovlp self) ∧
          length ld = nwalkers self ∧
          ∀ i, ld !! i = log_det_of true self i) as (-> & Lld & Hld).
  { destruct (decide (0 < ndown self)) as [Hd|Hd].
    - pose proof (wf_phib _ Hwf Hd) as Lb.
      apply bind_inv in E2 as ([Qb Rdn] & Eb & E2). simpl phib in Eb.
      apply qr_stacked_inv in Eb as [-> ->]. cbv beta iota in E2.
      apply bind_inv in E2 as (Rdd & Edb & E2).
      apply einsum_wii_inv in Edb as ->.
      rewrite iadd_same_length in E2 by (rewrite !length_fmap; lia).
      rewrite bind_ok in E2. injection E2 as <- <-.
      split; [done|]. split; [rewrite length_zip_with, !length_fmap; lia|].
      intros i. rewrite lookup_zip_with, !list_lookup_fmap.
      unfold log_det_of.
      destruct (phia self !! i) as [ma|]; simpl; [|done].
      rewrite decide_True by done.
      destruct (phib self !! i) as [mb|]; simpl; done.
    - injection E2 as <- <-.
      split; [done|]. split; [rewrite !length_fmap; lia|].
      intros i. rewrite !list_lookup_fmap. unfold log_det_of.
      destruct (phia self !! i) as [ma|]; simpl; [|done].
      by rewrite decide_False. }
  cbv beta iota in E. simpl detR_shift in E.
  rewrite broadcast2_same_length in E by lia.
  rewrite bind_ok in E. simpl ovlp in E. simpl detR in E.
  rewrite broadcast2_same_length in E
    by (rewrite length_fmap, length_zip_with; lia).
  rewrite bind_ok in E. injection E as <- <-.
  split; simpl; try done.
  - by apply lookup_exp_sub.
  - intros i. rewrite lookup_zip_with, (lookup_exp_sub _ _ Hld).
    destruct (ovlp self !! i); simpl; [|done].
    destruct (detR_of true self i); done.
Qed.

Lemma reortho_loop_ledger_mode (self self' : UHFWalkers C) dets :
  reortho false self = ok (self', dets) →
  ledger_inv self self' dets (nwalkers self).
Proof.
  intros E. unfold reortho in E.
  apply (reortho_loop_ledger self (nwalkers self) 0 self [] self' dets E).
  apply ledger_inv_start.
Qed.
End ReorthoReturns.

(** ** Construction *)

Lemma fmap_const_seq {A} (x : A) k n :
  (fun _ : nat => x) <$> seq k n = replicate n x.
Proof. revert k. induction n as [|n IH]; intros k; simpl; [done|]. by rewrite IH. Qed.

Section ConstructionFacts.
Context {C : Type} `{Backend C}.

Lemma py_round_div_ok a n : n ≠ 0 → ∃ q, py_round_div a n = ok q.
Proof. intros Hn. unfold py_round_div. rewrite decide_False by done. eauto. Qed.

(** A two-dimensional initial matrix and a batch of at least one walker:
    the constructor returns, and the object is the expected one. *)
Lemma UHFWalkers__init__ok (cfg : BaseConfig C) (iw : ndarray C)
    (n_up n_down n_basis nwl nwg nst r c : nat) :
  shape iw = [r; c] → nwl ≠ 0 →
  ∃ self, UHFWalkers__init__ cfg iw n_up n_down n_basis nwl nwg nst = ok self ∧
    nwalkers self = nwl ∧ nup self = n_up ∧ ndown self = n_down ∧
    nbasis self = n_basis ∧
    phia self = replicate nwl (cols_upto n_up (rows_of r c (data iw))) ∧
    phib self = replicate nwl (cols_from n_up (rows_of r c (data iw))) ∧
    buff_names self = base_buff_names cfg ++ ["phia, phib"] ∧
    well_formed self.
Proof.
  intros Hs Hn. unfold UHFWalkers__init__. rewrite Hs.
  match goal with |- context [py_round_div ?a ?n] =>
    destruct (py_round_div_ok a n Hn) as [q Hq]; rewrite Hq end.
  rewrite bind_ok. eexists. split; [reflexivity|]. simpl.
  rewrite !fmap_const_seq. repeat split; simpl;
    rewrite ?length_replicate, ?length_fmap, ?length_seq; done.
Qed.

Lemma UHFWalkers__init__not_2d (cfg : BaseConfig C) (iw : ndarray C)
    (n_up n_down n_basis nwl nwg nst : nat) :
  length (shape iw) ≠ 2 →
  UHFWalkers__init__ cfg iw n_up n_down n_basis nwl nwg nst
  = raise AssertionError.
Proof.
  intros Hs. unfold UHFWalkers__init__.
  destruct (shape iw) as [|? [|? [|? ?]]]; simpl in *; done.
Qed.
End ConstructionFacts.

(** C5, as worded, fails: the one-by-one matrix [iw0] has a single
    column, [n_up = 1] and [n_down = 1] do not partition it, and the
    constructor returns a batch all the same. *)
Lemma construction_ignores_partition :
  ¬ partition_checked_as_stated RealData.cfg0 RealData.iw0 1 1 1 1 1 1.
Proof.
  intros Hc. destruct (Hc 1 1 eq_refl ltac:(lia)) as [e He].
  destruct (UHFWalkers__init__ok RealData.cfg0 RealData.iw0 1 1 1 1 1 1 1 1
              eq_refl ltac:(lia)) as (self & Hs & _).
  rewrite Hs in He. discriminate.
Qed.

(** C5, amended: the constructor raises (an assertion error) whenever
    the initial matrix is not exactly two-dimensional; [n_up] and
    [n_down] are not compared with its number of columns; on every
    two-dimensional matrix, whatever [n_up] and [n_down], it returns a
    batch, provided the batch has at least one walker. *)
Theorem construction_checks_dimension {C : Type} `{Backend C}
    (cfg : BaseConfig C) (iw : ndarray C)
    (n_up n_down n_basis nwl nwg nst : nat) :
  (length (shape iw) ≠ 2 →
   UHFWalkers__init__ cfg iw n_up n_down n_basis nwl nwg nst
   = raise AssertionError) ∧
  (length (shape iw) = 2 → nwl ≠ 0 →
   ∃ self, UHFWalkers__init__ cfg iw n_up n_down n_basis nwl nwg nst
           = ok self).
Proof.
  split.
  - apply UHFWalkers__init__not_2d.
  - intros Hs Hn. destruct (shape iw) as [|r [|c [|? ?]]] eqn:E; try done.
    destruct (UHFWalkers__init__ok cfg iw n_up n_down n_basis nwl nwg nst r c
                E Hn) as (self & Hself & _).
    eauto.
Qed.

Lemma construction_checks_dimension_witness :
  UHFWalkers__init__ RealData.cfg0 (NDArray [3] [1%R; 2%R; 3%R]) 1 1 3 2 2 1
  = raise AssertionError ∧
  ∃ self, UHFWalkers__init__ RealData.cfg0 RealData.iw22 1 1 2 2 2 1 = ok self.
Proof.
  split.
  - apply (proj1 (construction_checks_dimension RealData.cfg0
                    (NDArray [3] [1%R; 2%R; 3%R]) 1 1 3 2 2 1)).
    simpl. lia.
  - apply (proj2 (construction_checks_dimension RealData.cfg0
                    RealData.iw22 1 1 2 2 2 1)).
    + reflexivity.
    + lia.
Defined.

(** C8: the constructor registers the single name ["phia, phib"], which
    is the name of no attribute; neither ["phia"] nor ["phib"] is
    registered, and the buffer size leaves both orbital arrays out.  For
    two walkers, two basis functions, one up and one down orbital, the
    registered ledger gives 4 entries per walker, while the per-walker
    fields of the batch, orbitals included, hold 8. *)
Theorem buffer_size_omits_orbitals :
  ∃ self,
    UHFWalkers__init__ RealData.cfg0 RealData.iw22 1 1 2 2 2 1 = ok self ∧
    buff_names self
    = ["ovlp"; "detR"; "log_detR"; "detR_shift"; "phia, phib"] ∧
    ("phia" ∉ buff_names self) ∧ ("phib" ∉ buff_names self) ∧
    buff_size self = 4 ∧
    Nat.div
      (length (ovlp self) + length (detR self) + length (log_detR self)
       + length (detR_shift self) + size3 (phia self) + size3 (phib self))
      (nwalkers self) = 8.
Proof.
  eexists. split; [reflexivity|]. simpl.
  repeat split; try done; intros Hin;
    repeat (apply elem_of_cons in Hin as [Hin|Hin]; [discriminate|]);
    by apply elem_of_nil in Hin.
Qed.

(** C9: on a batch for a single-determinant trial, [build] leaves the
    object exactly as the constructor made it; on a batch for a naive
    multi-determinant trial, [build] does the same, and the [det_weights]
    of the object it leaves has [N] rows of [n_det] entries, all zero. *)
Theorem build_after_construction {C : Type} `{Backend C}
    (cfg : BaseConfig C) (iw : ndarray C)
    (n_up n_down n_basis nwl nwg nst n_dets r c : nat) (trial : Trial C) :
  shape iw = [r; c] → nwl ≠ 0 →
  (∃ self,
     UHFWalkers__init__ cfg iw n_up n_down n_basis nwl nwg nst = ok self ∧
     UHFWalkers_build self trial = self) ∧
  (∃ self,
     UHFWalkersParticleHoleNaive__init__ cfg iw n_up n_down n_basis nwl nwg
       nst n_dets = ok self ∧
     UHFWalkersParticleHoleNaive_build self trial = self ∧
     nwalkers (phn_base self) = nwl ∧
     det_weights (UHFWalkersParticleHoleNaive_build self trial)
     = replicate nwl (replicate n_dets czero) ∧
     length (det_weights (UHFWalkersParticleHoleNaive_build self trial))
     = nwl ∧
     (∀ row, row ∈ det_weights (UHFWalkersParticleHoleNaive_build self trial) →
        length row = n_dets ∧ ∀ x, x ∈ row → x = czero)).
Proof.
  intros Hs Hn.
  destruct (UHFWalkers__init__ok cfg iw n_up n_down n_basis nwl nwg nst r c
              Hs Hn) as (self & Hself & HN & _).
  split; [by exists self|].
  unfold UHFWalkersParticleHoleNaive__init__,
    UHFWalkersParticleHoleNaive__init__kw.
  rewrite Hself, !bind_ok.
  eexists. split; [reflexivity|].
  unfold UHFWalkersParticleHoleNaive_build. simpl.
  rewrite HN. unfold zeros2, zeros1.
  split; [done|]. split; [done|]. split; [done|].
  split; [by rewrite length_replicate|].
  intros row Hrow. apply elem_of_replicate in Hrow as [-> _].
  split; [by rewrite length_replicate|].
  intros x Hx. by apply elem_of_replicate in Hx as [-> _].
Qed.

Lemma build_after_construction_witness :
  (∃ self,
     UHFWalkers__init__ RealData.cfg0 RealData.iw22 1 1 2 2 2 1 = ok self ∧
     UHFWalkers_build self (RealData.trial_of SingleDet) = self) ∧
  (∃ self,
     UHFWalkersParticleHoleNaive__init__ RealData.cfg0 RealData.iw22
       1 1 2 2 2 1 3 = ok self ∧
     det_weights (UHFWalkersParticleHoleNaive_build self
                    (RealData.trial_of ParticleHoleNaive))
     = [[0%R; 0%R; 0%R]; [0%R; 0%R; 0%R]]).
Proof.
  destruct (build_after_construction RealData.cfg0 RealData.iw22 1 1 2 2 2 1
              3 2 2 (RealData.trial_of SingleDet) eq_refl ltac:(lia))
    as [Hsingle _].
  destruct (build_after_construction RealData.cfg0 RealData.iw22 1 1 2 2 2 1
              3 2 2 (RealData.trial_of ParticleHoleNaive) eq_refl ltac:(lia))
    as [_ (self & Hself & _ & _ & Hw & _)].
  split; [exact Hsingle|]. exists self. split; [exact Hself|exact Hw].
Defined.

(** ** Variant dispatch *)

Lemma isinstance_true {C} (trial : Trial C) (K : TrialClass) :
  isinstance trial K = true ↔ K = trial_class trial ∨ K ∈ trial_bases trial.
Proof. apply bool_decide_eq_true. Qed.

Lemma isinstance_false {C} (trial : Trial C) (K : TrialClass) :
  isinstance trial K = false ↔
  K ≠ trial_class trial ∧ K ∉ trial_bases trial.
Proof. unfold isinstance. rewrite bool_decide_eq_false. tauto. Qed.

Lemma isinstance_own_class {C} (trial : Trial C) :
  isinstance trial (trial_class trial) = true.
Proof. apply isinstance_true. by left. Qed.

(** C6: a trial that is an instance of none of the classes that are the
    keys of [UHFWalkersTrial] makes [get_initial_walker] raise, with the
    message of the source, and the lookup of its class in the table raise
    as well: no initial matrix and no walker class come back, so no
    constructor runs and no buffer is allocated. *)
Theorem unrecognized_variant_raises {C : Type} `{Backend C}
    (trial : Trial C) :
  (∀ K, K ∈ UHFWalkersTrial.*1 → isinstance trial K = false) →
  get_initial_walker trial
  = raise (PyException "Unrecognized trial type in get_initial_walker") ∧
  dict_getitem UHFWalkersTrial (trial_class trial) = raise KeyError.
Proof.
  intros Hk. split.
  - unfold get_initial_walker.
    rewrite (Hk SingleDet), (Hk ParticleHoleWicks),
      (Hk ParticleHoleWicksNonChunked); [done|simpl..].
    + do 2 right; left.
    + right; left.
    + left.
  - pose proof (isinstance_own_class trial) as Hown.
    destruct (trial_class trial) eqn:E; [exfalso..|done];
      rewrite Hk in Hown; try done; simpl.
    + left.
    + right; left.
    + do 2 right; left.
    + do 3 right; left.
Qed.

Lemma unrecognized_variant_raises_witness :
  get_initial_walker (RealData.trial_of (OtherTrial "NOCI"))
  = raise (PyException "Unrecognized trial type in get_initial_walker") ∧
  dict_getitem UHFWalkersTrial (OtherTrial "NOCI") = raise KeyError.
Proof.
  apply (unrecognized_variant_raises (RealData.trial_of (OtherTrial "NOCI"))).
  simpl. intros K Hin.
  repeat (apply elem_of_cons in Hin as [->|Hin]; [reflexivity|]).
  by apply elem_of_nil in Hin.
Defined.

(** C10, as the code has it: the table maps the class [ParticleHoleNaive]
    to [UHFWalkersParticleHoleNaive].  On a trial of that class
    [get_initial_walker] raises when the class derives from none of
    [SingleDet], [ParticleHoleWicks] and [ParticleHoleWicksNonChunked];
    when it derives from one of them the trial is an instance of it, and
    [get_initial_walker] takes the branch of that class. *)
Theorem naive_variant_initial_walker {C : Type} `{Backend C}
    (trial : Trial C) :
  trial_class trial = ParticleHoleNaive →
  dict_getitem UHFWalkersTrial (trial_class trial)
  = ok cUHFWalkersParticleHoleNaive ∧
  ((∀ K, K ∈ [SingleDet; ParticleHoleWicks; ParticleHoleWicksNonChunked] →
         K ∉ trial_bases trial) →
   get_initial_walker trial
   = raise (PyException "Unrecognized trial type in get_initial_walker")) ∧
  (SingleDet ∈ trial_bases trial →
   get_initial_walker trial = ok (1, psi trial)) ∧
  (SingleDet ∉ trial_bases trial →
   ParticleHoleWicks ∈ trial_bases trial
   ∨ ParticleHoleWicksNonChunked ∈ trial_bases trial →
   get_initial_walker trial
   = (initial_walker ← hstack (psi0a trial) (psi0b trial);
      ok (_num_dets_for_trial trial, initial_walker))).
Proof.
  intros E. split; [by rewrite E|].
  assert (∀ K, K ≠ ParticleHoleNaive →
            isinstance trial K = bool_decide (K ∈ trial_bases trial)) as Hi.
  { intros K HK. unfold isinstance. apply bool_decide_ext.
    rewrite E. split; [by intros [?|?]|by right]. }
  unfold get_initial_walker. rewrite !Hi by done.
  split; [|split].
  - intros Hb.
    rewrite !bool_decide_eq_false_2; [done| apply Hb..]; simpl.
    + do 2 right; left.
    + right; left.
    + left.
  - intros Hs. by rewrite bool_decide_eq_true_2.
  - intros Hs Hw. rewrite (bool_decide_eq_false_2 _ Hs).
    destruct (bool_decide (ParticleHoleWicks ∈ trial_bases trial)) eqn:E1;
      [done|].
    apply bool_decide_eq_false in E1. destruct Hw as [Hw|Hw]; [done|].
    by rewrite bool_decide_eq_true_2.
Qed.

Lemma naive_variant_initial_walker_witness :
  dict_getitem UHFWalkersTrial ParticleHoleNaive
  = ok cUHFWalkersParticleHoleNaive ∧
  get_initial_walker (RealData.trial_of ParticleHoleNaive)
  = raise (PyException "Unrecognized trial type in get_initial_walker").
Proof.
  destruct (naive_variant_initial_walker
              (RealData.trial_of ParticleHoleNaive) eq_refl)
    as (Hd & Hr & _).
  split; [exact Hd|]. apply Hr. simpl. intros K _ Hin.
  by apply elem_of_nil in Hin.
Defined.

(** C10, as it is worded, fails on a trial whose class
    [ParticleHoleNaive] derives from [ParticleHoleWicks]: the table
    answers [UHFWalkersParticleHoleNaive] and [get_initial_walker]
    returns the initial matrix of the Wick branch. *)
Lemma naive_variant_gets_initial_walker :
  trial_class RealData.naive_from_wicks = ParticleHoleNaive ∧
  dict_getitem UHFWalkersTrial (trial_class RealData.naive_from_wicks)
  = ok cUHFWalkersParticleHoleNaive ∧
  get_initial_walker RealData.naive_from_wicks
  = ok (3, NDArray [2; 4] [1; 2; 1; 2; 3; 4; 3; 4]%R) ∧
  ¬ (∃ e, get_initial_walker RealData.naive_from_wicks = raise e).
Proof.
  assert (get_initial_walker RealData.naive_from_wicks
          = ok (3, NDArray [2; 4] [1; 2; 1; 2; 3; 4; 3; 4]%R)) as E
    by reflexivity.
  split; [done|]. split; [done|]. split; [exact E|].
  intros [e He]. rewrite E in He. discriminate.
Qed.

(** ** The engine on a batch without down channel *)

Section NoDownChannel.
Context {C : Type} `{Backend C}.

Lemma detR_of_no_down (use_gpu : bool) (self : UHFWalkers C) i :
  ndown self = 0 →
  detR_of use_gpu self i =
    ma ← phia self !! i; s ← detR_shift self !! i;
    Some (xp_exp (csub (xp_sum (log_abs (diag_of (qr_R ma)))) s)).
Proof.
  intros Hd. unfold detR_of, log_det_of.
  destruct (phia self !! i); simpl; [|done].
  rewrite decide_False by lia. done.
Qed.

Lemma set_phib_id (self : UHFWalkers C) : set_phib (phib self) self = self.
Proof. by destruct self. Qed.

(** Without down channel the body of the loop does not look at [phib],
    whether it returns or raises. *)
Lemma reortho_walker_set_phib pb (self : UHFWalkers C) acc k :
  ndown self = 0 →
  reortho_walker (set_phib pb self) acc k
  = ('(s, a) ← reortho_walker self acc k; ok (set_phib pb s, a)) ∧
  (∀ s a, reortho_walker self acc k = ok (s, a) → ndown s = 0).
Proof.
  destruct self as [? nd ? ? ? ? ? ? ? ? ? pa0 pb0 ? ? ? ? ? ? ?].
  simpl. intros ->. unfold reortho_walker. simpl.
  destruct (qr_sign_fix pa0 k) as [e|[pa Rd]]; simpl; [done|].
  repeat (match goal with
          | |- context [getitem ?l ?i] =>
              destruct (getitem l i); simpl; [done|]
          end).
  split; [done|]. by intros s a [= <- _].
Qed.

Lemma reortho_loop_set_phib pb iws :
  ∀ (self : UHFWalkers C) acc, ndown self = 0 →
    reortho_loop iws (set_phib pb self) acc
    = ('(s, a) ← reortho_loop iws self acc; ok (set_phib pb s, a)).
Proof.
  induction iws as [|k iws IH]; intros self acc Hd; simpl; [done|].
  destruct (reortho_walker_set_phib pb self acc k Hd) as [-> Hnd].
  destruct (reortho_walker self acc k) as [e|[s a]]; simpl; [done|].
  apply IH. by eapply Hnd.
Qed.

Lemma reortho_batched_set_phib pb (self : UHFWalkers C) :
  ndown self = 0 →
  reortho_batched true (set_phib pb self)
  = ('(s, a) ← reortho_batched true self; ok (set_phib pb s, a)).
Proof.
  destruct self as [? nd ? ? ov ? ? sh ? ? ? pa0 pb0 ? ? ? ? ? ? ?].
  simpl. intros ->. unfold reortho_batched. simpl.
  destruct (qr_stacked pa0) as [e|[Q Rup]]; simpl; [done|].
  destruct (einsum_wii Rup) as [e|Rd]; simpl; [done|].
  destruct (broadcast2 csub _ sh) as [e|ex]; simpl; [done|].
  destruct (broadcast2 cdiv ov _) as [e|o]; simpl; done.
Qed.

Lemma reortho_set_phib (use_gpu : bool) pb (self : UHFWalkers C) :
  ndown self = 0 →
  reortho use_gpu (set_phib pb self)
  = ('(s, a) ← reortho use_gpu self; ok (set_phib pb s, a)).
Proof.
  intros Hd. unfold reortho. destruct use_gpu.
  - by apply reortho_batched_set_phib.
  - by apply reortho_loop_set_phib.
Qed.
End NoDownChannel.

(** ** The ledger correction *)

Section LedgerCorrection.
Context {C : Type} `{Backend C}.

Lemma log_det_of_is_Some (use_gpu : bool) (self : UHFWalkers C) i :
  well_formed self → i < nwalkers self →
  is_Some (log_det_of use_gpu self i).
Proof.
  intros Hwf Hi.
  destruct (well_formed_lookups self i Hwf Hi) as ([ma Ea] & Eb & _).
  unfold log_det_of. rewrite Ea. simpl.
  case_decide as Hd; [|done].
  destruct (Eb Hd) as [mb Emb]. rewrite Emb. done.
Qed.

(** The ledger of walker [i] after a call that returns, in either mode;
    the logarithm is accumulated by the loop. *)
Lemma ledger_of_call (use_gpu : bool) (self self' : UHFWalkers C) dets :
  well_formed self →
  reortho use_gpu self = ok (self', dets) →
  (∀ i, detR self' !! i = detR_of use_gpu self i) ∧
  (∀ i, dets !! i = detR_of use_gpu self i) ∧
  (∀ i, ovlp self' !! i =
     o ← ovlp self !! i; d ← detR_of use_gpu self i; Some (cdiv o d)) ∧
  (use_gpu = false →
   ∀ i, i < nwalkers self → log_detR self' !! i =
     l ← log_detR self !! i; d ← detR_of false self i;
     Some (cadd l (xp_log d))) ∧
  (use_gpu = true → log_detR self' = log_detR self) ∧
  self' = with_state self (phia self') (phib self') (detR self')
            (log_detR self') (ovlp self').
Proof.
  intros Hwf E.
  assert (∀ g i, ¬ i < nwalkers self → detR_of g self i = None) as Hout.
  { intros g i Hi. unfold detR_of, log_det_of.
    by rewrite (lookup_ge_None_2 (phia self))
      by (rewrite (wf_phia _ Hwf); lia). }
  assert (∀ i, ¬ i < nwalkers self → ovlp self !! i = None) as Hoo.
  { intros i Hi. apply lookup_ge_None_2. rewrite (wf_ovlp _ Hwf). lia. }
  assert (∀ i, ¬ i < nwalkers self → detR self !! i = None) as Hod.
  { intros i Hi. apply lookup_ge_None_2. rewrite (wf_detR _ Hwf). lia. }
  destruct use_gpu.
  - unfold reortho in E.
    pose proof (reortho_batched_post self self' dets Hwf E) as Post.
    split; [apply Post|].
    split; [intros i; rewrite (bp_dets _ _ _ Post); apply Post|].
    split; [apply Post|]. split; [done|]. split; [intros _; apply Post|].
    apply Post.
  - pose proof (reortho_loop_ledger_mode self self' dets E) as Inv.
    split; [|split; [|split; [|split; [|split]]]].
    + intros i. rewrite (li_detR _ _ _ _ Inv). case_decide as Hi; [done|].
      by rewrite Hout, Hod.
    + intros i. rewrite (li_acc _ _ _ _ Inv). case_decide as Hi; [done|].
      by rewrite Hout.
    + intros i. rewrite (li_ovlp _ _ _ _ Inv). case_decide as Hi; [done|].
      by rewrite Hoo.
    + intros _ i Hi. rewrite (li_log_detR _ _ _ _ Inv).
      by rewrite decide_True.
    + done.
    + apply Inv.
Qed.

(** The ledger of walker [i] after a call, in either mode, on a batch
    whose matrices decompose. *)
Lemma ledger_after_call (use_gpu : bool) (self : UHFWalkers C) :
  well_formed self → decomposable self →
  ∃ self' dets,
    reortho use_gpu self = ok (self', dets) ∧
    (∀ i, detR self' !! i = detR_of use_gpu self i) ∧
    (∀ i, dets !! i = detR_of use_gpu self i) ∧
    (∀ i, ovlp self' !! i =
       o ← ovlp self !! i; d ← detR_of use_gpu self i; Some (cdiv o d)) ∧
    (use_gpu = false →
     ∀ i, i < nwalkers self → log_detR self' !! i =
       l ← log_detR self !! i; d ← detR_of false self i;
       Some (cadd l (xp_log d))).
Proof.
  intros Hwf Hdec.
  assert (∀ g i, ¬ i < nwalkers self → detR_of g self i = None) as Hout.
  { intros g i Hi. unfold detR_of, log_det_of.
    by rewrite (lookup_ge_None_2 (phia self))
      by (rewrite (wf_phia _ Hwf); lia). }
  assert (∀ i, ¬ i < nwalkers self → ovlp self !! i = None) as Hoo.
  { intros i Hi. apply lookup_ge_None_2. rewrite (wf_ovlp _ Hwf). lia. }
  assert (∀ i, ¬ i < nwalkers self → detR self !! i = None) as Hod.
  { intros i Hi. apply lookup_ge_None_2. rewrite (wf_detR _ Hwf). lia. }
  destruct use_gpu.
  - unfold reortho.
    destruct (reortho_batched_mode self Hwf Hdec)
      as (self' & dets & E & Post).
    exists self', dets. split; [done|]. split; [apply Post|].
    split; [|split; [apply Post|done]].
    intros i. rewrite (bp_dets _ _ _ Post). apply Post.
  - destruct (reortho_loop_mode self Hwf Hdec) as (self' & dets & E & Inv).
    exists self', dets. split; [done|]. split; [|split; [|split]].
    + intros i. rewrite (inv_detR _ _ _ _ Inv). case_decide as Hi; [done|].
      by rewrite Hout, Hod.
    + intros i. rewrite (inv_acc _ _ _ _ Inv). case_decide as Hi; [done|].
    by rewrite Hout.
    + intros i. rewrite (inv_ovlp _ _ _ _ Inv). case_decide as Hi; [done|].
      by rewrite Hoo.
    + intros _ i Hi. rewrite (inv_log_detR _ _ _ _ Inv).
      by rewrite decide_True.
Qed.
End LedgerCorrection.

(** ** The decomposition of the backend on real data *)

Module RealShapes.
Import RealData.

Lemma forallb_lookup {A} (f : A → bool) (l : list A) :
  forallb f l = true → ∀ i x, l !! i = Some x → f x = true.
Proof.
  induction l as [|y l IH]; intros Hf [|i] x; simpl in *; try done;
    apply andb_prop in Hf as [Hy Hl].
  - by intros [= <-].
  - by apply IH.
Qed.

Lemma eye_is_matrix n : is_matrix n n (eye n).
Proof.
  split; unfold eye; [by rewrite length_fmap, length_seq|].
  apply Forall_fmap, Forall_forall. intros i _. simpl.
  by rewrite length_insert, length_replicate.
Qed.

Lemma square_economic (m : matrix R) : square m = true → qr_economic m.
Proof.
  unfold square. intros Hm. apply andb_prop in Hm as [Hr Hc].
  apply Nat.ltb_lt in Hr.
  assert (Forall (fun row => length row = length m) m) as HF.
  { apply Forall_lookup. intros i row Hrow.
    by apply Nat.eqb_eq, (forallb_lookup _ _ Hc i). }
  assert (ncols m = length m) as Ec.
  { unfold ncols. destruct m as [|row m]; [simpl in Hr; lia|].
    simpl. by inversion HF. }
  split; [done|]. exists (eye (length m)), m. split; [done|].
  unfold nrows. rewrite Ec. split; [apply eye_is_matrix|done].
Qed.

(** A batch of square matrices decomposes. *)
Lemma all_square_decomposable (self : UHFWalkers R) :
  all_square (phia self) = true →
  (0 < ndown self → all_square (phib self) = true) →
  decomposable self.
Proof.
  assert (∀ phi : list (matrix R), all_square phi = true →
            ∀ i m, phi !! i = Some m → qr_economic m) as Hall.
  { intros phi Hphi i m Hm. apply square_economic.
    by apply (forallb_lookup _ _ Hphi i). }
  intros Ha Hb. split; [by apply Hall|]. intros Hd. by apply Hall, Hb.
Qed.
End RealShapes.

(** C4: on a batch with [n_down = 0], in the loop mode and in the
    batched mode alike, the down orbitals are not even read: with any
    other [phib] in their place the call ends the same way, raising the
    same exception or returning the same determinants and the same
    object, that [phib] still in place.  A call that returns leaves
    [phib] the array it was, and the determinant of each walker is [exp]
    of the up-channel sum of [log |d_k|] minus the walker's shift, which
    is the value returned for that walker.  The call returns on a batch
    whose arrays hold one entry per walker and whose up matrices
    decompose. *)
Theorem no_down_channel_untouched {C : Type} `{Backend C}
    (use_gpu : bool) (self : UHFWalkers C) :
  ndown self = 0 →
  (∀ pb, reortho use_gpu (set_phib pb self)
         = ('(self', dets) ← reortho use_gpu self;
            ok (set_phib pb self', dets))) ∧
  (∀ self' dets, reortho use_gpu self = ok (self', dets) →
     phib self' = phib self ∧
     (well_formed self →
      ∀ i ma s, phia self !! i = Some ma → detR_shift self !! i = Some s →
        detR self' !! i
        = Some (xp_exp (csub (xp_sum (log_abs (diag_of (qr_R ma)))) s)) ∧
        dets !! i = detR self' !! i)) ∧
  (well_formed self → decomposable self →
   ∃ self' dets, reortho use_gpu self = ok (self', dets)).
Proof.
  intros Hd.
  split; [intros pb; by apply reortho_set_phib|]. split.
  - intros self' dets E. split.
    + pose proof (reortho_set_phib use_gpu (phib self) self Hd) as Hs.
      rewrite set_phib_id, E in Hs. simpl in Hs.
      injection Hs as Hs. by rewrite Hs.
    + intros Hwf i ma s Ea Es.
      destruct (ledger_of_call use_gpu self self' dets Hwf E)
        as (HdetR & Hdets & _).
      rewrite HdetR, Hdets, detR_of_no_down by done. by rewrite Ea, Es.
  - intros Hwf Hdec.
    destruct (ledger_after_call use_gpu self Hwf Hdec)
      as (self' & dets & E & _).
    by exists self', dets.
Qed.

Lemma no_down_channel_untouched_witness :
  (∀ pb, reortho false (set_phib pb RealData.batch0)
         = ('(self', dets) ← reortho false RealData.batch0;
            ok (set_phib pb self', dets))) ∧
  ∃ self' dets,
    reortho false RealData.batch0 = ok (self', dets) ∧
    phib self' = [[[]]] ∧
    detR self' !! 0
    = Some (exp (ln (Rabs (-2)) + 0 - 0)) ∧
    dets !! 0 = detR self' !! 0.
Proof.
  destruct (no_down_channel_untouched false RealData.batch0 eq_refl)
    as (Hany & Hret & Hex).
  split; [exact Hany|].
  assert (well_formed RealData.batch0) as Hwf by (split; simpl; done).
  destruct Hex as (self' & dets & E).
  - exact Hwf.
  - apply RealShapes.all_square_decomposable; [reflexivity|simpl; lia].
  - destruct (Hret self' dets E) as [Hpb Hdet].
    destruct (Hdet Hwf 0 [[(-2)%R]] 0%R eq_refl eq_refl) as [Hd0 Hd1].
    exists self', dets. split; [exact E|]. split; [exact Hpb|].
    split; [exact Hd0|exact Hd1].
Defined.

(** ** Where the two modes agree, and where the loop does more *)

Section ModesCompared.
Context {C : Type} `{Backend C}.

(** In the loop mode every walker's orbital matrix ends as
    [Q . diag(sign(diag R))], in both channels when there is a down
    channel. *)
Lemma loop_mode_sign_fix (self : UHFWalkers C) :
  well_formed self → decomposable self →
  ∃ self' dets,
    reortho false self = ok (self', dets) ∧
    phia self' = sign_fix <$> phia self ∧
    (0 < ndown self → phib self' = sign_fix <$> phib self).
Proof.
  intros Hwf Hdec.
  destruct (reortho_loop_mode self Hwf Hdec) as (self' & dets & E & Inv).
  exists self', dets. split; [done|]. split.
  - apply list_eq. intros i.
    rewrite (inv_phia _ _ _ _ Inv), list_lookup_fmap.
    case_decide as Hi; [done|].
    by rewrite lookup_ge_None_2 by (rewrite (wf_phia _ Hwf); lia).
  - intros Hd. apply list_eq. intros i.
    rewrite (inv_phib _ _ _ _ Inv), list_lookup_fmap.
    case_decide as Hi; [done|].
    by rewrite lookup_ge_None_2 by (rewrite (wf_phib _ Hwf Hd); lia).
Qed.

(** The batched mode stores [Q] and does not change [log_detR]. *)
Lemma batched_mode_keeps_Q (self : UHFWalkers C) :
  well_formed self → decomposable self →
  ∃ self' dets,
    reortho true self = ok (self', dets) ∧
    phia self' = qr_Q <$> phia self ∧
    log_detR self' = log_detR self.
Proof.
  intros Hwf Hdec. unfold reortho.
  destruct (reortho_batched_mode self Hwf Hdec)
    as (self' & dets & E & Post).
  exists self', dets. split; [done|]. split; apply Post.
Qed.

(** Up to the order of the additions, the two modes compute the same
    determinants: when the addition of the backend is associative with
    [czero] as its unit, they return the same list and leave the same
    [detR] and [ovlp]. *)
Hypothesis cadd_assoc : ∀ x y z : C, cadd x (cadd y z) = cadd (cadd x y) z.
Hypothesis cadd_czero_l : ∀ x : C, cadd czero x = x.
Hypothesis cadd_czero_r : ∀ x : C, cadd x czero = x.



End ModesCompared.



(** ** The two modes on real data *)

Module RealFacts.
Import RealData.
Local Open Scope R_scope.

Lemma Rabs_m2 : Rabs (-2) = 2.
Proof. unfold Rabs. destruct (Rcase_abs (-2)); lra. Qed.

Lemma Rabs_m1 : Rabs (-1) = 1.
Proof. unfold Rabs. destruct (Rcase_abs (-1)); lra. Qed.

Lemma Rsign_neg x : x < 0 → Rsign x = -1.
Proof. intros Hx. unfold Rsign. repeat destruct (Rlt_dec _ _); lra. Qed.

Lemma exp_ln_2 : exp (ln 2 + 0 - 0) = 2.
Proof. replace (ln 2 + 0 - 0) with (ln 2) by lra. apply exp_ln. lra. Qed.

Lemma ln_2_pos : 0 < ln 2.
Proof. rewrite <- ln_1. apply ln_increasing; lra. Qed.

(** [batch0] is what the constructor returns on [iw0]. *)
Lemma batch0_constructed :
  UHFWalkers__init__ cfg0 iw0 1 0 1 1 1 1 = ok batch0.
Proof. reflexivity. Qed.

(** Runs the engine on a concrete batch, leaving the operations on the
    reals as they are. *)
Ltac run_reortho :=
  cbv -[Rtrigo_def.exp ln Rabs Rsign Rplus Rminus Rmult Rdiv Rinv Ropp IZR].

Lemma loop_on_batch0 : reortho false batch0 = ok (batch1, [2]).
Proof.
  run_reortho. rewrite Rabs_m2, exp_ln_2, (Rsign_neg (-2)) by lra.
  repeat (f_equal; try lra).
Qed.

Lemma loop_on_batch1 : reortho false batch1 = ok (batch2, [1]).
Proof.
  run_reortho. rewrite Rabs_m1, ln_1, (Rsign_neg (-1)) by lra.
  replace (0 + 0 - 0) with 0 by lra. rewrite exp_0, ln_1.
  repeat (f_equal; try lra).
Qed.

Lemma batched_on_batch0 : reortho_batched true batch0 = ok (batch0_gpu, [2]).
Proof.
  run_reortho. rewrite Rabs_m2, exp_ln_2.
  repeat (f_equal; try lra).
Qed.

Lemma sign_fix_m2 : sign_fix [[-2]] = [[-1]].
Proof.
  unfold sign_fix, matmul, dot_row, diag_mat. simpl.
  rewrite (Rsign_neg (-2)) by lra. repeat (f_equal; try lra).
Qed.






End RealFacts.


(** C1, on the batch of one walker built from the matrix [[-2]]: the loop
    mode and the batched mode return the same determinant and leave the
    same [detR] and [ovlp], but not the same orbitals (the loop stores
    [Q . diag(sign) = [[-1]]], the batched routine stores [Q = [[1]]])
    and not the same [log_detR] (the loop adds [log 2], the batched
    routine leaves it at 0). *)
Theorem modes_differ_on_batch0 :
  UHFWalkers__init__ RealData.cfg0 RealData.iw0 1 0 1 1 1 1
  = ok RealData.batch0 ∧
  reortho false RealData.batch0 = ok (RealData.batch1, [2%R]) ∧
  reortho true RealData.batch0 = ok (RealData.batch0_gpu, [2%R]) ∧
  detR RealData.batch1 = detR RealData.batch0_gpu ∧
  ovlp RealData.batch1 = ovlp RealData.batch0_gpu ∧
  phia RealData.batch1 ≠ phia RealData.batch0_gpu ∧
  log_detR RealData.batch1 ≠ log_detR RealData.batch0_gpu.
Proof.
  split; [apply RealFacts.batch0_constructed|].
  split; [apply RealFacts.loop_on_batch0|].
  split; [apply RealFacts.batched_on_batch0|].
  split; [done|]. split; [done|]. split.
  - simpl. intros Heq. injection Heq as Heq. lra.
  - simpl. intros Heq. injection Heq as Heq.
    pose proof RealFacts.ln_2_pos. lra.
Qed.

(** C3, on the same batch: the batched routine replaces the orbital
    matrix by [Q] alone.  The decomposition of [[-2]] has [Q = [[1]]] and
    [d_0 = -2]; the matrix the claim asks for is [Q . diag(sign) =
    [[-1]]], and [reortho_batched] leaves [[1]]. *)
Theorem batched_mode_skips_sign_fix :
  reortho_batched true RealData.batch0 = ok (RealData.batch0_gpu, [2%R]) ∧
  phia RealData.batch0 = [[[(-2)%R]]] ∧
  qr [[(-2)%R]] = ok ([[1%R]], [[(-2)%R]]) ∧
  sign_fix [[(-2)%R]] = [[(-1)%R]] ∧
  phia RealData.batch0_gpu = [[[1%R]]] ∧
  phia RealData.batch0_gpu ≠ sign_fix <$> phia RealData.batch0.
Proof.
  split; [apply RealFacts.batched_on_batch0|].
  split; [done|]. split; [done|].
  split; [apply RealFacts.sign_fix_m2|]. split; [done|].
  simpl. rewrite RealFacts.sign_fix_m2. intros Heq. injection Heq as Heq. lra.
Qed.

(** ** Independent copies *)

Lemma cell_bound (r c a b : nat) : a < r → b < c → a * c + b < r * c.
Proof. intros Ha Hb. nia. Qed.

Lemma cell_split (L i j q q' : nat) :
  q < L → q' < L → i * L + q = j * L + q' → i = j ∧ q = q'.
Proof. intros Hq Hq' E. assert (i = j) by nia. subst. split; [done|lia]. Qed.

Module StoreFacts.
Import Store.

Section MemoryFacts.
Context {C : Type}.
Implicit Types (h : list (list C)) (a v : array) (m : matrix C).

Lemma contents_intro h a r c m :
  dims a = [r; c] → reads h a r c m → contents h a = Some m.
Proof.
  intros Hd [Hlen Hrows]. unfold contents. rewrite Hd.
  apply mapM_Some_2, Forall2_same_length_lookup_2.
  { by rewrite length_seq. }
  intros i' i row Hi Hrow. apply lookup_seq in Hi as [-> Hi]. simpl.
  destruct (Hrows _ _ Hrow) as [Hc Hx].
  apply mapM_Some_2, Forall2_same_length_lookup_2.
  { by rewrite length_seq. }
  intros j' j x Hj Hxj. apply lookup_seq in Hj as [-> Hj]. simpl. eauto.
Qed.

Lemma contents_elim h a r c m :
  dims a = [r; c] → contents h a = Some m → reads h a r c m.
Proof.
  intros Hd. unfold contents. rewrite Hd. intros Hm.
  apply mapM_Some_1 in Hm. split.
  { apply Forall2_length in Hm. by rewrite length_seq in Hm. }
  intros i row Hrow.
  destruct (Forall2_lookup_r _ _ _ _ _ Hm Hrow) as (i' & Hi & Hr).
  apply lookup_seq in Hi as [-> Hi]. simpl in Hr.
  apply mapM_Some_1 in Hr. split.
  { apply Forall2_length in Hr. by rewrite length_seq in Hr. }
  intros j x Hx.
  destruct (Forall2_lookup_r _ _ _ _ _ Hr Hx) as (j' & Hj & Hrd).
  apply lookup_seq in Hj as [-> Hj]. done.
Qed.

Lemma read2_extend h ext a i j x :
  read2 h a i j = Some x → read2 (h ++ ext) a i j = Some x.
Proof.
  unfold read2. destruct (index2 a i j) as [p|]; simpl; [|done].
  destruct (h !! buf a) as [d|] eqn:E; simpl; [|done].
  intros Hx. by rewrite (lookup_app_l_Some _ _ _ _ E).
Qed.

Lemma reads_extend h ext a r c m :
  reads h a r c m → reads (h ++ ext) a r c m.
Proof.
  intros [Hl Hr]. split; [done|]. intros i row Hrow.
  destruct (Hr _ _ Hrow) as [Hc Hx]. split; [done|].
  intros j x Hj. apply read2_extend. eauto.
Qed.


Lemma slice_cols_upto_reads h a r c s0 s1 m n :
  dims a = [r; c] → strides a = [s0; s1] → reads h a r c m →
  ∃ v, slice_cols_upto n a = Some v ∧ dims v = [r; n `min` c] ∧
       buf v = buf a ∧ reads h v r (n `min` c) (cols_upto n m).
Proof.
  intros Hd Hs [Hl Hr]. unfold slice_cols_upto. rewrite Hd.
  eexists. split; [done|]. split; [done|]. split; [done|].
  unfold cols_upto. split; [by rewrite length_fmap|].
  intros i row' Hrow'. rewrite list_lookup_fmap in Hrow'.
  destruct (m !! i) as [row|] eqn:Hrow; simpl in Hrow'; [|done].
  injection Hrow' as <-. destruct (Hr _ _ Hrow) as [Hc Hx].
  split; [rewrite length_take; lia|].
  intros j x Hj. apply lookup_take_Some in Hj as [Hj _].
  by apply Hx.
Qed.

Lemma slice_cols_from_reads h a r c s0 s1 m n :
  dims a = [r; c] → strides a = [s0; s1] → reads h a r c m →
  ∃ v, slice_cols_from n a = Some v ∧ dims v = [r; c - n] ∧
       buf v = buf a ∧ reads h v r (c - n) (cols_from n m).
Proof.
  intros Hd Hs [Hl Hr]. unfold slice_cols_from. rewrite Hd, Hs.
  eexists. split; [done|]. split; [done|]. split; [done|].
  unfold cols_from. split; [by rewrite length_fmap|].
  intros i row' Hrow'. rewrite list_lookup_fmap in Hrow'.
  destruct (m !! i) as [row|] eqn:Hrow; simpl in Hrow'; [|done].
  injection Hrow' as <-. destruct (Hr _ _ Hrow) as [Hc Hx].
  split; [rewrite length_drop; lia|].
  intros j x Hj. rewrite lookup_drop in Hj.
  pose proof (lookup_lt_Some _ _ _ Hj) as Hlt.
  specialize (Hx _ _ Hj). revert Hx.
  unfold read2, index2. simpl. rewrite Hs. simpl.
  replace (offset a + n `min` c * s1 + i * s0 + j * s1)
    with (offset a + i * s0 + (n + j) * s1); [done|].
  replace (n `min` c) with n by lia. lia.
Qed.

Lemma lookup_snoc (h : list (list C)) d : (h ++ [d]) !! length h = Some d.
Proof. by rewrite lookup_app_r, Nat.sub_diag. Qed.

Lemma reads_Forall h a r c m :
  reads h a r c m → Forall (fun row => length row = c) m.
Proof.
  intros [_ Hr]. apply Forall_lookup. intros i row Hrow.
  by destruct (Hr _ _ Hrow).
Qed.

(** A fresh buffer filled row by row is read back as the rows. *)
Lemma reads_fresh h' b off r c m d :
  h' !! b = Some d → length m = r →
  Forall (fun row => length row = c) m →
  (∀ i j x row, m !! i = Some row → row !! j = Some x →
     d !! (off + i * c + j) = Some x) →
  reads h' (Array b off [r; c] [c; 1]) r c m.
Proof.
  intros Hb Hl Hc Hd. split; [done|]. intros i row Hrow.
  split; [by eapply (proj1 (Forall_lookup _ _)) in Hc|].
  intros j x Hx. unfold read2, index2. simpl. rewrite Hb. simpl.
  replace (off + i * c + j * 1) with (off + i * c + j) by lia. eauto.
Qed.

Lemma copy_reads h v r c m :
  dims v = [r; c] → reads h v r c m →
  ∃ x, copy h v = Some (h ++ [mjoin m], x) ∧
       x = Array (length h) 0 [r; c] [c; 1] ∧
       reads (h ++ [mjoin m]) x r c m.
Proof.
  intros Hd Hm. unfold copy.
  rewrite (contents_intro _ _ _ _ _ Hd Hm). simpl. rewrite Hd.
  eexists. split; [done|]. split; [done|].
  pose proof (reads_Forall _ _ _ _ _ Hm) as Hc.
  apply (reads_fresh _ _ _ _ _ _ (mjoin m));
    [apply lookup_snoc|apply Hm|done|].
  intros i j x row Hrow Hx. simpl.
  apply (join_lookup_Some_same_length' c); [done| |by eauto].
  rewrite <- (proj1 (Forall_lookup _ _) Hc _ _ Hrow).
  by eapply lookup_lt_Some.
Qed.

Lemma copies_reads (slice : array → option array) n :
  ∀ h a v r c m,
    slice a = Some v → dims v = [r; c] → reads h v r c m →
    ∃ ext xs, copies slice n h a = Some (h ++ ext, xs) ∧ length xs = n ∧
      Forall (fun x => dims x = [r; c] ∧ reads (h ++ ext) x r c m) xs.
Proof.
  induction n as [|n IH]; intros h a v r c m Hs Hd Hm; simpl.
  - exists [], []. by rewrite app_nil_r.
  - rewrite Hs. simpl.
    destruct (copy_reads h v r c m Hd Hm) as (x & Hx & -> & Hrx).
    rewrite Hx. simpl.
    destruct (IH (h ++ [mjoin m]) a v r c m Hs Hd (reads_extend _ _ _ _ _ _ Hm))
      as (ext & xs & Hxs & Hlen & Hall).
    rewrite Hxs. simpl. exists ([mjoin m] ++ ext), (Array (length h) 0 [r; c] [c; 1] :: xs).
    rewrite (assoc_L (++)). split; [done|]. split; [by rewrite <- Hlen|].
    constructor; [|done]. split; [done|]. by apply reads_extend.
Qed.

Lemma walker_slot b n r c i v :
  walker (Array b 0 [n; r; c] [r * c; c; 1]) i = Some v ↔
  i < n ∧ v = slot b i r c.
Proof.
  unfold walker, slot. simpl. case_decide as Hi; split.
  - by intros [= <-].
  - by intros [_ ->].
  - done.
  - by intros [? _].
Qed.

Lemma length_join_rows (m : list (list C)) r c :
  length m = r → Forall (fun row => length row = c) m →
  length (mjoin m) = r * c.
Proof.
  intros Hl Hc. rewrite length_join, (sum_list_fmap_same c) by done.
  by rewrite Hl.
Qed.

Lemma stack_reads h xs n r c m :
  n ≠ 0 → length xs = n →
  Forall (fun x => dims x = [r; c] ∧ reads h x r c m) xs →
  ∃ d, stack h xs = Some (h ++ [d], Array (length h) 0 [n; r; c] [r * c; c; 1]) ∧
       ∀ i, i < n → reads (h ++ [d]) (slot (length h) i r c) r c m.
Proof.
  intros Hn Hlen Hall. unfold stack.
  assert (mapM (contents h) xs = Some (replicate n m)) as ->.
  { apply mapM_Some_2, Forall2_same_length_lookup_2.
    { by rewrite length_replicate. }
    intros i x y Hx Hy. apply lookup_replicate in Hy as [-> _].
    destruct (proj1 (Forall_lookup _ _) Hall _ _ Hx) as [Hd Hr].
    by apply (contents_intro _ _ r c). }
  simpl. destruct xs as [|x0 xs']; [simpl in Hlen; lia|].
  destruct (Forall_cons_1 _ _ _ Hall) as [[Hd0 Hr0] _].
  rewrite Hd0, Hlen. eexists. split; [done|].
  intros i Hi. pose proof (reads_Forall _ _ _ _ _ Hr0) as Hc.
  destruct Hr0 as [Hl0 _].
  apply (reads_fresh _ _ _ _ _ _
           (mjoin ((fun m0 : list (list C) => mjoin m0) <$> replicate n m)));
    [apply lookup_snoc|done|done|].
  intros k l x row Hrow Hx.
  assert (k < r) by (rewrite <- Hl0; by eapply lookup_lt_Some).
  assert (l < c).
  { rewrite <- (proj1 (Forall_lookup _ _) Hc _ _ Hrow). by eapply lookup_lt_Some. }
  replace (0 + i * (r * c) + k * c + l) with (i * (r * c) + (k * c + l)) by lia.
  apply (join_lookup_Some_same_length' (r * c)).
  - apply Forall_fmap, Forall_replicate. simpl. by apply length_join_rows.
  - by apply cell_bound.
  - exists (mjoin m). split.
    + rewrite list_lookup_fmap, lookup_replicate_2 by done. done.
    + apply (join_lookup_Some_same_length' c); [done|done|eauto].
Qed.

Lemma read2_write2_ne h a a' i j i' j' x y :
  read2 h a' i' j' = Some y →
  buf a ≠ buf a' ∨ index2 a i j ≠ index2 a' i' j' →
  read2 (write2 h a i j x) a' i' j' = Some y.
Proof.
  unfold read2, write2. intros Hy Hne.
  destruct (index2 a' i' j') as [p'|]; simpl in *; [|done].
  destruct (index2 a i j) as [p|]; [|done].
  destruct (decide (buf a = buf a')) as [E|E].
  - rewrite E, list_lookup_alter_eq.
    destruct (h !! buf a') as [d|]; simpl in *; [|done].
    rewrite list_lookup_insert_ne; [done|].
    intros ->. by destruct Hne.
  - by rewrite list_lookup_alter_ne.
Qed.

Lemma read2_write2_eq h a i j x :
  is_Some (read2 h a i j) → read2 (write2 h a i j x) a i j = Some x.
Proof.
  unfold read2, write2. intros [y Hy].
  destruct (index2 a i j) as [p|]; simpl in *; [|done].
  rewrite list_lookup_alter_eq.
  destruct (h !! buf a) as [d|]; simpl in *; [|done].
  apply list_lookup_insert_eq. by eapply lookup_lt_Some.
Qed.

Lemma reads_write2 h a i j x a' r c m :
  (∀ i' j' y, i' < r → j' < c → read2 h a' i' j' = Some y →
     read2 (write2 h a i j x) a' i' j' = Some y) →
  reads h a' r c m → reads (write2 h a i j x) a' r c m.
Proof.
  intros Hf [Hl Hr]. split; [done|]. intros i' row Hrow.
  destruct (Hr _ _ Hrow) as [Hc Hx]. split; [done|].
  intros j' y Hy. apply Hf; [| |by eauto].
  - rewrite <- Hl. by eapply lookup_lt_Some.
  - rewrite <- Hc. by eapply lookup_lt_Some.
Qed.

(** Writing an entry of one walker of a stack: the entry is written,
    the other walkers of the stack and every array on another buffer
    read what they read before. *)
Lemma write_slot h b r c i k l x m :
  k < r → l < c → reads h (slot b i r c) r c m →
  read2 (write2 h (slot b i r c) k l x) (slot b i r c) k l = Some x ∧
  (∀ j m', j ≠ i → reads h (slot b j r c) r c m' →
     reads (write2 h (slot b i r c) k l x) (slot b j r c) r c m') ∧
  (∀ a' r' c' m', buf a' ≠ b → reads h a' r' c' m' →
     reads (write2 h (slot b i r c) k l x) a' r' c' m').
Proof.
  intros Hk Hl [Hlen Hr]. split; [|split].
  - apply read2_write2_eq.
    destruct (lookup_lt_is_Some_2 m k ltac:(lia)) as [row Hrow].
    destruct (Hr _ _ Hrow) as [Hc Hx].
    destruct (lookup_lt_is_Some_2 row l ltac:(lia)) as [y Hy]. eauto.
  - intros j m' Hj. apply reads_write2. intros k' l' y Hk' Hl' Hy.
    apply read2_write2_ne; [done|]. right. unfold index2, slot. simpl.
    intros [= E].
    pose proof (cell_bound r c k l Hk Hl).
    pose proof (cell_bound r c k' l' Hk' Hl').
    destruct (cell_split (r * c) i j (k * c + l) (k' * c + l')); [done|done|lia|done].
  - intros a' r' c' m' Hb. apply reads_write2. intros k' l' y _ _ Hy.
    apply read2_write2_ne; [done|]. left. simpl. done.
Qed.

Lemma reads_rows_of h b r c (d : list C) :
  h !! b = Some d → length d = r * c →
  reads h (Array b 0 [r; c] [c; 1]) r c (rows_of r c d).
Proof.
  intros Hb Hd. unfold rows_of. split; [by rewrite length_fmap, length_seq|].
  intros i row Hrow. rewrite list_lookup_fmap in Hrow.
  destruct (seq 0 r !! i) as [i'|] eqn:Hi; simpl in Hrow; [|done].
  apply lookup_seq in Hi as [-> Hi]. injection Hrow as <-. simpl. split.
  - rewrite length_take, length_drop. nia.
  - intros j x Hx. apply lookup_take_Some in Hx as [Hx Hj].
    rewrite lookup_drop in Hx. unfold read2, index2. simpl. rewrite Hb. simpl.
    by rewrite Nat.mul_1_r.
Qed.

Lemma init_orbitals_spec h a r c s0 s1 m n_up n :
  n ≠ 0 → dims a = [r; c] → strides a = [s0; s1] → reads h a r c m →
  ∃ ext ba bb,
    init_orbitals h a n_up n
    = Some (h ++ ext,
            Array ba 0 [n; r; n_up `min` c]
              [r * (n_up `min` c); n_up `min` c; 1],
            Array bb 0 [n; r; c - n_up] [r * (c - n_up); c - n_up; 1]) ∧
    length h ≤ ba ∧ ba < bb ∧
    (∀ i, i < n →
       reads (h ++ ext) (slot ba i r (n_up `min` c)) r (n_up `min` c)
         (cols_upto n_up m)) ∧
    (∀ i, i < n →
       reads (h ++ ext) (slot bb i r (c - n_up)) r (c - n_up)
         (cols_from n_up m)).
Proof.
  intros Hn Hd Hs Hm. unfold init_orbitals.
  destruct (slice_cols_upto_reads h a r c s0 s1 m n_up Hd Hs Hm)
    as (va & Hva & Hdva & _ & Hrva).
  destruct (copies_reads (slice_cols_upto n_up) n h a va _ _ _ Hva Hdva Hrva)
    as (ext1 & xs & -> & Hlen1 & Hall1).
  simpl.
  destruct (stack_reads (h ++ ext1) xs n _ _ _ Hn Hlen1 Hall1)
    as (d1 & -> & Hpa).
  simpl.
  destruct (slice_cols_from_reads h a r c s0 s1 m n_up Hd Hs Hm)
    as (vb & Hvb & Hdvb & _ & Hrvb).
  assert (reads ((h ++ ext1) ++ [d1]) vb r (c - n_up) (cols_from n_up m))
    as Hrvb' by (by do 2 apply reads_extend).
  destruct (copies_reads (slice_cols_from n_up) n _ a vb _ _ _ Hvb Hdvb Hrvb')
    as (ext2 & ys & -> & Hlen2 & Hall2).
  simpl.
  destruct (stack_reads _ ys n _ _ _ Hn Hlen2 Hall2) as (d2 & -> & Hpb).
  simpl.
  exists (ext1 ++ [d1] ++ ext2 ++ [d2]), (length (h ++ ext1)),
    (length (((h ++ ext1) ++ [d1]) ++ ext2)).
  replace (h ++ ext1 ++ [d1] ++ ext2 ++ [d2])
    with ((((h ++ ext1) ++ [d1]) ++ ext2) ++ [d2])
    by (by rewrite <- !(assoc_L (++))).
  assert (length h ≤ length (h ++ ext1)) by (rewrite length_app; lia).
  assert (length (h ++ ext1) < length (((h ++ ext1) ++ [d1]) ++ ext2))
    by (rewrite !length_app; simpl; lia).
  split; [done|]. split; [done|]. split; [done|]. split; [|exact Hpb].
  intros i Hi. rewrite <- (assoc_L (++) _ ext2 [d2]).
  apply reads_extend. by apply Hpa.
Qed.
End MemoryFacts.
End StoreFacts.

(** C7: the constructor returns a batch in which, for every walker
    [i], [phia[i]] is the first [n_up] columns of the initial matrix and
    [phib[i]] the remaining ones.  In memory, the two arrays it builds
    are buffers of their own: each walker's slot reads these same
    entries; writing any entry of one walker's [phia] (or [phib]) is read
    back from that slot, and leaves the initial matrix, every other
    walker's slot of that array and every slot of the other array with
    the entries they had. *)
Theorem walkers_are_independent_copies {C : Type} `{Backend C}
    (cfg : BaseConfig C) (iw : ndarray C)
    (n_up n_down n_basis nwl nwg nst r c : nat)
    (h : list (list C)) (b : nat) :
  shape iw = [r; c] → length (data iw) = r * c → nwl ≠ 0 →
  h !! b = Some (data iw) →
  ∃ self h' pa pb,
    UHFWalkers__init__ cfg iw n_up n_down n_basis nwl nwg nst = ok self ∧
    Store.init_orbitals h (Store.Array b 0 [r; c] [c; 1]) n_up nwl
    = Some (h', pa, pb) ∧
    length (phia self) = nwl ∧ length (phib self) = nwl ∧
    (∀ i, i < nwl →
       phia self !! i = Some (cols_upto n_up (rows_of r c (data iw))) ∧
       phib self !! i = Some (cols_from n_up (rows_of r c (data iw))) ∧
       ∃ va vb,
         Store.walker pa i = Some va ∧ Store.walker pb i = Some vb ∧
         Store.contents h' va = phia self !! i ∧
         Store.contents h' vb = phib self !! i) ∧
    (∀ i va k l x,
       Store.walker pa i = Some va → k < r → l < n_up `min` c →
       Store.read2 (Store.write2 h' va k l x) va k l = Some x ∧
       Store.contents (Store.write2 h' va k l x)
         (Store.Array b 0 [r; c] [c; 1])
       = Some (rows_of r c (data iw)) ∧
       (∀ j vj, j ≠ i → Store.walker pa j = Some vj →
          Store.contents (Store.write2 h' va k l x) vj = phia self !! j) ∧
       (∀ j vj, Store.walker pb j = Some vj →
          Store.contents (Store.write2 h' va k l x) vj = phib self !! j)) ∧
    (∀ i vb k l x,
       Store.walker pb i = Some vb → k < r → l < c - n_up →
       Store.read2 (Store.write2 h' vb k l x) vb k l = Some x ∧
       Store.contents (Store.write2 h' vb k l x)
         (Store.Array b 0 [r; c] [c; 1])
       = Some (rows_of r c (data iw)) ∧
       (∀ j vj, j ≠ i → Store.walker pb j = Some vj →
          Store.contents (Store.write2 h' vb k l x) vj = phib self !! j) ∧
       (∀ j vj, Store.walker pa j = Some vj →
          Store.contents (Store.write2 h' vb k l x) vj = phia self !! j)).
Proof.
  intros Hs Hlen Hn Hb.
  destruct (UHFWalkers__init__ok cfg iw n_up n_down n_basis nwl nwg nst r c
              Hs Hn) as (self & Hself & _ & _ & _ & _ & Hpa & Hpb & _).
  pose proof (StoreFacts.reads_rows_of h b r c (data iw) Hb Hlen) as Hm.
  destruct (StoreFacts.init_orbitals_spec h (Store.Array b 0 [r; c] [c; 1])
              r c c 1 _ n_up nwl Hn eq_refl eq_refl Hm)
    as (ext & ba & bb & Hinit & Hba & Hbb & Ha & Hbd).
  pose proof (lookup_lt_Some _ _ _ Hb) as Hlt.
  pose proof (StoreFacts.reads_extend h ext _ _ _ _ Hm) as Hm'.
  assert (∀ i, i < nwl → phia self !! i
      = Some (cols_upto n_up (rows_of r c (data iw)))) as Hla.
  { intros i Hi. by rewrite Hpa, lookup_replicate_2. }
  assert (∀ i, i < nwl → phib self !! i
      = Some (cols_from n_up (rows_of r c (data iw)))) as Hlb.
  { intros i Hi. by rewrite Hpb, lookup_replicate_2. }
  eexists self, _, _, _. split; [done|]. split; [exact Hinit|].
  split; [by rewrite Hpa, length_replicate|].
  split; [by rewrite Hpb, length_replicate|].
  split; [|split].
  - intros i Hi. split; [by apply Hla|]. split; [by apply Hlb|].
    eexists _, _. split; [by apply StoreFacts.walker_slot|].
    split; [by apply StoreFacts.walker_slot|].
    rewrite Hla, Hlb by done.
    split; eapply StoreFacts.contents_intro; eauto.
  - intros i va k l x Hva Hk Hl.
    apply StoreFacts.walker_slot in Hva as [Hi ->].
    destruct (StoreFacts.write_slot (h ++ ext) ba r (n_up `min` c) i k l x _
                Hk Hl (Ha i Hi)) as (Hw & Hsame & Hother).
    split; [done|]. split; [|split].
    + eapply StoreFacts.contents_intro; [done|].
      apply Hother; [simpl; lia|done].
    + intros j vj Hj Hvj. apply StoreFacts.walker_slot in Hvj as [Hj' ->].
      rewrite Hla by done. eapply StoreFacts.contents_intro; [done|].
      apply Hsame; [done|by apply Ha].
    + intros j vj Hvj. apply StoreFacts.walker_slot in Hvj as [Hj' ->].
      rewrite Hlb by done. eapply StoreFacts.contents_intro; [done|].
      apply Hother; [simpl; lia|by apply Hbd].
  - intros i vb k l x Hvb Hk Hl.
    apply StoreFacts.walker_slot in Hvb as [Hi ->].
    destruct (StoreFacts.write_slot (h ++ ext) bb r (c - n_up) i k l x _
                Hk Hl (Hbd i Hi)) as (Hw & Hsame & Hother).
    split; [done|]. split; [|split].
    + eapply StoreFacts.contents_intro; [done|].
      apply Hother; [simpl; lia|done].
    + intros j vj Hj Hvj. apply StoreFacts.walker_slot in Hvj as [Hj' ->].
      rewrite Hlb by done. eapply StoreFacts.contents_intro; [done|].
      apply Hsame; [done|by apply Hbd].
    + intros j vj Hvj. apply StoreFacts.walker_slot in Hvj as [Hj' ->].
      rewrite Hla by done. eapply StoreFacts.contents_intro; [done|].
      apply Hother; [simpl; lia|by apply Ha].
Qed.

Lemma walkers_are_independent_copies_witness :
  ∃ self h' pa pb,
    UHFWalkers__init__ RealData.cfg0 RealData.iw22 1 1 2 2 2 1 = ok self ∧
    Store.init_orbitals [data RealData.iw22] (Store.Array 0 0 [2; 2] [2; 1])
      1 2 = Some (h', pa, pb) ∧
    (∀ i, i < 2 →
       phia self !! i = Some [[1%R]; [3%R]] ∧
       phib self !! i = Some [[2%R]; [4%R]]) ∧
    (∀ i va k l x,
       Store.walker pa i = Some va → k < 2 → l < 1 →
       ∀ j vj, j ≠ i → Store.walker pa j = Some vj →
         Store.contents (Store.write2 h' va k l x) vj = phia self !! j).
Proof.
  destruct (walkers_are_independent_copies RealData.cfg0 RealData.iw22
              1 1 2 2 2 1 2 2 [data RealData.iw22] 0
              eq_refl eq_refl ltac:(lia) eq_refl)
    as (self & h' & pa & pb & Hself & Hinit & _ & _ & Hcopy & Hwa & _).
  exists self, h', pa, pb. split; [exact Hself|]. split; [exact Hinit|].
  split.
  - intros i Hi. destruct (Hcopy i Hi) as (Ha & Hb & _).
    split; [exact Ha|exact Hb].
  - intros i va k l x Hva Hk Hl j vj Hj Hvj.
    destruct (Hwa i va k l x Hva Hk Hl) as (_ & _ & Hothers & _).
    exact (Hothers j vj Hj Hvj).
Defined.

(** * Further properties *)

(** ** Further properties of the walker batch *)


Section CallInvariants.
Context {C : Type} `{Backend C}.

Lemma detR_of_defined (use_gpu : bool) (self : UHFWalkers C) i :
  well_formed self →
  (i < nwalkers self → is_Some (detR_of use_gpu self i)) ∧
  (¬ i < nwalkers self → detR_of use_gpu self i = None).
Proof.
  intros Hwf. split; intros Hi.
  - destruct (log_det_of_is_Some use_gpu self i Hwf Hi) as [ld Eld].
    destruct (well_formed_lookups self i Hwf Hi)
      as (_ & _ & _ & _ & [s Es] & _).
    unfold detR_of. rewrite Eld, Es. by eexists.
  - unfold detR_of, log_det_of.
    by rewrite (lookup_ge_None_2 (phia self))
      by (rewrite (wf_phia _ Hwf); lia).
Qed.

Lemma reortho_lengths_of_call (use_gpu : bool) (self self' : UHFWalkers C)
    dets :
  well_formed self → reortho use_gpu self = ok (self', dets) →
  length dets = nwalkers self ∧
  length (detR self') = nwalkers self ∧
  length (ovlp self') = nwalkers self.
Proof.
  intros Hwf E.
  destruct (ledger_of_call use_gpu self self' dets Hwf E)
    as (HdetR & Hdets & Hovlp & _).
  split; [|split]; apply length_from_lookups; intros i Hi.
  - rewrite Hdets. by apply detR_of_defined.
  - rewrite Hdets. by apply detR_of_defined.
  - rewrite HdetR. by apply detR_of_defined.
  - rewrite HdetR. by apply detR_of_defined.
  - rewrite Hovlp.
    destruct (well_formed_lookups self i Hwf Hi)
      as (_ & _ & _ & _ & _ & [o Eo]).
    destruct (proj1 (detR_of_defined use_gpu self i Hwf) Hi) as [d Ed].
    rewrite Eo, Ed. by eexists.
  - rewrite Hovlp.
    by rewrite (lookup_ge_None_2 (ovlp self))
      by (rewrite (wf_ovlp _ Hwf); lia).
Qed.

Lemma reortho_lengths (use_gpu : bool) (self : UHFWalkers C) :
  well_formed self → decomposable self →
  ∃ self' dets,
    reortho use_gpu self = ok (self', dets) ∧
    length dets = nwalkers self ∧
    length (detR self') = nwalkers self ∧
    length (ovlp self') = nwalkers self.
Proof.
  intros Hwf Hdec.
  destruct (ledger_after_call use_gpu self Hwf Hdec)
    as (self' & dets & E & _).
  exists self', dets. split; [done|].
  by apply (reortho_lengths_of_call use_gpu self self' dets).
Qed.
End CallInvariants.

(** X1: a batch that the constructor returns can be re-orthonormalised
    at once, in the loop mode and in the batched mode, when the two
    blocks of columns of the initial matrix decompose: the call does not
    raise and returns one determinant per walker. *)
Theorem constructed_batch_reorthonormalises {C : Type} `{Backend C}
    (cfg : BaseConfig C) (iw : ndarray C)
    (n_up n_down n_basis nwl nwg nst r c : nat) (use_gpu : bool) :
  shape iw = [r; c] → nwl ≠ 0 →
  qr_economic (cols_upto n_up (rows_of r c (data iw))) →
  (0 < n_down → qr_economic (cols_from n_up (rows_of r c (data iw)))) →
  ∃ self self' dets,
    UHFWalkers__init__ cfg iw n_up n_down n_basis nwl nwg nst = ok self ∧
    reortho use_gpu self = ok (self', dets) ∧
    length dets = nwl ∧ length (detR self') = nwl ∧
    length (ovlp self') = nwl.
Proof.
  intros Hs Hn Hup Hdn.
  destruct (UHFWalkers__init__ok cfg iw n_up n_down n_basis nwl nwg nst r c
              Hs Hn)
    as (self & Hself & HN & _ & Hnd & _ & Hpa & Hpb & _ & Hwf).
  assert (decomposable self) as Hdec.
  { split.
    - intros i m. rewrite Hpa. intros Hm.
      by apply lookup_replicate in Hm as [-> _].
    - rewrite Hnd. intros Hd i m. rewrite Hpb. intros Hm.
      apply lookup_replicate in Hm as [-> _]. by apply Hdn. }
  destruct (reortho_lengths use_gpu self Hwf Hdec)
    as (self' & dets & E & Hl1 & Hl2 & Hl3).
  rewrite HN in Hl1, Hl2, Hl3. by exists self, self', dets.
Qed.

Lemma constructed_batch_reorthonormalises_witness :
  ∃ self self' dets,
    UHFWalkers__init__ RealData.cfg0 RealData.iw24 2 2 2 2 2 1 = ok self ∧
    reortho true self = ok (self', dets) ∧
    length dets = 2 ∧ length (detR self') = 2 ∧ length (ovlp self') = 2.
Proof.
  apply (constructed_batch_reorthonormalises RealData.cfg0 RealData.iw24
           2 2 2 2 2 1 2 4 true).
  - reflexivity.
  - lia.
  - apply RealShapes.square_economic. reflexivity.
  - intros _. apply RealShapes.square_economic. reflexivity.
Defined.

(** X2: on a batch whose arrays hold one entry per walker, a call of
    the engine that returns, in either mode, has changed nothing but
    [phia], [phib], [detR], [log_detR] and [ovlp] (the shift, the sizes,
    the Green's functions and the buffer are those of before), and the
    batch it leaves again holds one entry per walker in every array, so
    that the next call finds every walker's entries.  The call returns
    when the orbital matrices of the batch decompose. *)
Theorem reortho_keeps_batch_well_formed {C : Type} `{Backend C}
    (use_gpu : bool) (self : UHFWalkers C) :
  well_formed self →
  (decomposable self →
   ∃ self' dets, reortho use_gpu self = ok (self', dets)) ∧
  ∀ self' dets,
    reortho use_gpu self = ok (self', dets) →
    self' = with_state self (phia self') (phib self') (detR self')
              (log_detR self') (ovlp self') ∧
    well_formed self'.
Proof.
  intros Hwf. split.
  { intros Hdec.
    destruct (ledger_after_call use_gpu self Hwf Hdec)
      as (self' & dets & E & _).
    by exists self', dets. }
  intros self' dets E.
  destruct (reortho_lengths_of_call use_gpu self self' dets Hwf E)
    as (_ & HlR & Hlo).
  destruct (ledger_of_call use_gpu self self' dets Hwf E)
    as (_ & _ & _ & Hlog & Hlogb & Hframe).
  split; [done|].
  assert (nwalkers self' = nwalkers self) as HN by (by rewrite Hframe).
  assert (ndown self' = ndown self) as Hnd by (by rewrite Hframe).
  assert (detR_shift self' = detR_shift self) as Hsh by (by rewrite Hframe).
  destruct use_gpu.
  - unfold reortho in E.
    pose proof (reortho_batched_post self self' dets Hwf E) as Post.
    split.
    + rewrite (bp_phia _ _ _ Post), length_fmap, HN. apply Hwf.
    + rewrite Hnd, (bp_phib _ _ _ Post), HN.
      intros Hd. rewrite decide_True by done. rewrite length_fmap.
      by apply Hwf.
    + by rewrite HN.
    + rewrite (bp_log_detR _ _ _ Post), HN. apply Hwf.
    + rewrite Hsh, HN. apply Hwf.
    + by rewrite HN.
  - pose proof (reortho_loop_ledger_mode self self' dets E) as Inv.
    split.
    + rewrite (li_len_phia _ _ _ _ Inv), HN. apply Hwf.
    + rewrite Hnd, (li_len_phib _ _ _ _ Inv), HN. apply Hwf.
    + by rewrite HN.
    + rewrite HN.
      apply length_from_lookups; intros i Hi;
        rewrite (li_log_detR _ _ _ _ Inv).
      * rewrite decide_True by done.
        destruct (well_formed_lookups self i Hwf Hi)
          as (_ & _ & _ & [l El] & _).
        destruct (proj1 (detR_of_defined false self i Hwf) Hi) as [d Ed].
        rewrite El, Ed. by eexists.
      * rewrite decide_False by done.
        apply lookup_ge_None_2. rewrite (wf_log_detR _ Hwf). lia.
    + rewrite Hsh, HN. apply Hwf.
    + by rewrite HN.
Qed.

Lemma reortho_keeps_batch_well_formed_witness :
  ∃ self' dets,
    reortho false RealData.batch0 = ok (self', dets) ∧
    self' = with_state RealData.batch0 (phia self') (phib self') (detR self')
              (log_detR self') (ovlp self') ∧
    well_formed self'.
Proof.
  destruct (reortho_keeps_batch_well_formed false RealData.batch0)
    as (Hex & Hret).
  - split; simpl; done.
  - destruct Hex as (self' & dets & E).
    + apply RealShapes.all_square_decomposable; [reflexivity|simpl; lia].
    + destruct (Hret self' dets E) as [Hf Hw].
      exists self', dets. split; [exact E|]. split; [exact Hf|exact Hw].
Defined.


(** ** What each mode leaves in the orbitals and in the ledger *)

(** X3: in the loop mode the call returns on every well-formed batch
    whose orbital matrices decompose and leaves, for every walker, [phia[i] = Q . diag(sign(diag R))] for
    the decomposition [(Q, R)] of the matrix it had; the same holds for
    [phib] when there is a down channel, and [phib] is the array it was
    when there is none. *)
Theorem loop_mode_orbitals {C : Type} `{Backend C} (self : UHFWalkers C) :
  well_formed self → decomposable self →
  ∃ self' dets,
    reortho false self = ok (self', dets) ∧
    phia self' = sign_fix <$> phia self ∧
    phib self' = (if decide (0 < ndown self) then sign_fix <$> phib self
                  else phib self) ∧
    dets = detR self'.
Proof.
  intros Hwf Hdec.
  destruct (loop_mode_sign_fix self Hwf Hdec)
    as (self' & dets & E & Hpa & Hpb).
  exists self', dets. split; [done|]. split; [done|].
  destruct (reortho_loop_mode self Hwf Hdec) as (s2 & d2 & E2 & Inv).
  rewrite E in E2. injection E2 as <- <-.
  split.
  - case_decide as Hd; [by apply Hpb|].
    apply list_eq. intros i. rewrite (inv_phib _ _ _ _ Inv).
    rewrite decide_False; [done|]. intros [_ ?]. done.
  - apply list_eq. intros i.
    rewrite (inv_acc _ _ _ _ Inv), (inv_detR _ _ _ _ Inv).
    case_decide as Hi; [done|]. symmetry.
    apply lookup_ge_None_2. rewrite (wf_detR _ Hwf). lia.
Qed.

Lemma loop_mode_orbitals_witness :
  ∃ self' dets,
    reortho false RealData.batch0 = ok (self', dets) ∧
    phia self' = [sign_fix [[(-2)%R]]] ∧
    phib self' = [[[]]] ∧
    dets = detR self'.
Proof.
  apply (loop_mode_orbitals RealData.batch0).
  - split; simpl; done.
  - apply RealShapes.all_square_decomposable; [reflexivity|simpl; lia].
Defined.

(** X4: in the batched mode the call returns on every well-formed batch
    whose orbital matrices decompose and leaves [phia[i] = Q] (and [phib[i] = Q] when there is a down
    channel): the signs of the diagonal of [R] are not moved into the
    orbitals.  It never changes [log_detR], and the array it returns is
    the batch's own [detR]. *)
Theorem batched_mode_orbitals {C : Type} `{Backend C} (self : UHFWalkers C) :
  well_formed self → decomposable self →
  ∃ self' dets,
    reortho_batched true self = ok (self', dets) ∧
    phia self' = qr_Q <$> phia self ∧
    phib self' = (if decide (0 < ndown self)
                  then qr_Q <$> phib self else phib self) ∧
    log_detR self' = log_detR self ∧
    dets = detR self'.
Proof.
  intros Hwf Hdec.
  destruct (reortho_batched_mode self Hwf Hdec)
    as (self' & dets & E & Post).
  exists self', dets. split; [done|].
  split; [apply Post|]. split; [apply Post|]. split; apply Post.
Qed.

Lemma batched_mode_orbitals_witness :
  ∃ self' dets,
    reortho_batched true RealData.batch0 = ok (self', dets) ∧
    phia self' = [[[1%R]]] ∧
    phib self' = [[[]]] ∧
    log_detR self' = [0%R] ∧
    dets = detR self'.
Proof.
  destruct (batched_mode_orbitals RealData.batch0)
    as (self' & dets & E & Hpa & Hpb & Hl & Hd).
  - split; simpl; done.
  - apply RealShapes.all_square_decomposable; [reflexivity|simpl; lia].
  - exists self', dets. split; [exact E|]. split; [exact Hpa|].
    split; [exact Hpb|]. split; [exact Hl|exact Hd].
Defined.



(** X12: in memory, the two assignments of the constructor only
    allocate.  Every buffer that existed before keeps its identifier and
    its entries, and [phia] and [phib] are two distinct buffers that did
    not exist before. *)
Theorem construction_only_allocates {C : Type}
    (h : list (list C)) (b r c n_up nwl : nat) (d : list C) :
  h !! b = Some d → length d = r * c → nwl ≠ 0 →
  ∃ h' pa pb,
    Store.init_orbitals h (Store.Array b 0 [r; c] [c; 1]) n_up nwl
    = Some (h', pa, pb) ∧
    (∀ b' d', h !! b' = Some d' → h' !! b' = Some d') ∧
    length h ≤ Store.buf pa ∧ Store.buf pa < Store.buf pb.
Proof.
  intros Hb Hd Hn.
  pose proof (StoreFacts.reads_rows_of h b r c d Hb Hd) as Hm.
  destruct (StoreFacts.init_orbitals_spec h (Store.Array b 0 [r; c] [c; 1])
              r c c 1 _ n_up nwl Hn eq_refl eq_refl Hm)
    as (ext & ba & bb & Hinit & Hba & Hbb & _ & _).
  eexists _, _, _. split; [exact Hinit|]. simpl.
  split; [|done].
  intros b' d' Hb'. by apply lookup_app_l_Some.
Qed.

Lemma construction_only_allocates_witness :
  ∃ h' pa pb,
    Store.init_orbitals [[1%R; 2%R; 3%R; 4%R]]
      (Store.Array 0 0 [2; 2] [2; 1]) 1 2 = Some (h', pa, pb) ∧
    h' !! 0 = Some [1%R; 2%R; 3%R; 4%R] ∧
    1 ≤ Store.buf pa ∧ Store.buf pa < Store.buf pb.
Proof.
  destruct (construction_only_allocates [[1%R; 2%R; 3%R; 4%R]] 0 2 2 1 2
              [1%R; 2%R; 3%R; 4%R] eq_refl eq_refl ltac:(lia))
    as (h' & pa & pb & Hinit & Hkeep & Hfresh).
  exists h', pa, pb. split; [exact Hinit|].
  split; [exact (Hkeep 0 _ eq_refl)|exact Hfresh].
Defined.


(** ** The engine on a batch whose arrays are too short *)

Section IllFormed.
Context {C : Type} `{Backend C}.






(** The stacked decomposition and the stacked diagonal either raise
    [ValueError] or return one entry per matrix. *)
Lemma qr_stacked_cases (phi : list (matrix C)) :
  qr_stacked phi = raise ValueError ∨
  ∃ Q R, qr_stacked phi = ok (Q, R) ∧
         length Q = length phi ∧ length R = length phi.
Proof.
  unfold qr_stacked.
  destruct (mapM qr phi) as [e|QR] eqn:E; simpl.
  - left. f_equal. eapply mapM_raise; [|exact E]. apply qr_raises.
  - right. eexists _, _. split; [done|].
    apply mapM_ok_length in E. by rewrite !length_fmap.
Qed.

Lemma einsum_wii_cases (R : list (matrix C)) :
  einsum_wii R = raise ValueError ∨
  ∃ d, einsum_wii R = ok d ∧ length d = length R.
Proof.
  destruct (einsum_wii R) as [e|d] eqn:E.
  - left. f_equal. by eapply einsum_wii_raises.
  - right. exists d. split; [done|]. by apply mapM_ok_length in E.
Qed.

Lemma broadcast2_mismatch (f : C → C → C) (a b : list C) :
  length a ≠ length b → length a ≠ 1 → length b ≠ 1 →
  broadcast2 f a b = raise ValueError.
Proof.
  intros Hab Ha Hb. unfold broadcast2. rewrite decide_False by done.
  destruct a as [|x [|x' a]], b as [|y [|y' b]]; simpl in *; done.
Qed.
End IllFormed.



(** X7: the batched mode on a batch whose shift array has neither one
    entry per walker nor a single entry raises [ValueError], from the
    subtraction [log_det - self.detR_shift], and leaves no result. *)
Theorem batched_raises_on_shift_mismatch {C : Type} `{Backend C}
    (self : UHFWalkers C) :
  (0 < ndown self → length (phib self) = length (phia self)) →
  length (detR_shift self) ≠ length (phia self) →
  length (phia self) ≠ 1 → length (detR_shift self) ≠ 1 →
  reortho true self = raise ValueError.
Proof.
  intros Hb Hs Ha Hs1. unfold reortho, reortho_batched.
  simpl negb. cbv iota.
  destruct (qr_stacked_cases (phia self)) as [Ea|(Q & Rup & Ea & _ & LRa)];
    rewrite Ea; [done|].
  rewrite bind_ok. cbv beta iota.
  destruct (einsum_wii_cases Rup) as [Eda|(Rd & Eda & Lda)];
    rewrite Eda; [done|].
  rewrite bind_ok. simpl ndown.
  destruct (decide (0 < ndown self)) as [Hd|Hd].
  - simpl phib.
    destruct (qr_stacked_cases (phib self))
      as [Eb|(Qb & Rdn & Eb & _ & LRb)]; rewrite Eb; [done|].
    rewrite bind_ok. cbv beta iota.
    destruct (einsum_wii_cases Rdn) as [Edb|(Rdd & Edb & Ldb)];
      rewrite Edb; [done|].
    rewrite bind_ok.
    rewrite iadd_same_length by (rewrite !length_fmap, Lda, Ldb, LRa, LRb;
                                 by rewrite Hb).
    rewrite !bind_ok. cbv beta iota. simpl detR_shift.
    rewrite broadcast2_mismatch; [done| | |done];
      rewrite length_zip_with, !length_fmap, Lda, Ldb, LRa, LRb, ?Hb by done;
      lia.
  - rewrite !bind_ok. cbv beta iota. simpl detR_shift.
    rewrite broadcast2_mismatch; [done| | |done];
      rewrite !length_fmap, Lda, LRa; lia.
Qed.

Lemma batched_raises_on_shift_mismatch_witness :
  ∃ self,
    UHFWalkers__init__ RealData.cfg0 RealData.iw22 1 0 2 3 3 1 = ok self ∧
    reortho true
      (with_state self [[[1%R]]; [[1%R]]] (phib self) (detR self)
         (log_detR self) (ovlp self))
    = raise ValueError.
Proof.
  eexists. split; [reflexivity|].
  apply batched_raises_on_shift_mismatch.
  - simpl. lia.
  - simpl. lia.
  - simpl. lia.
  - simpl. lia.
Defined.


(** X10: the constructors of the two subclasses fail where
    [UHFWalkers.__init__] fails, with its exception: the assertion error
    on an initial matrix that is not two-dimensional,
    [ZeroDivisionError], from the division by [float(nwalkers)], on a
    batch of zero walkers.  Where [UHFWalkers.__init__] returns, they
    return a batch that carries the very object it returns when
    [verbose] is off, and raise [AttributeError], from the read of
    [self.ot], when [verbose] is on. *)
Theorem constructors_fail_together {C : Type} `{Backend C}
    (cfg : BaseConfig C) (iw : ndarray C)
    (n_up n_down n_basis nwl nwg nst n_dets : nat) (verbose : bool) :
  let base := UHFWalkers__init__ cfg iw n_up n_down n_basis nwl nwg nst in
  let wick := UHFWalkersParticleHole__init__kw verbose cfg iw n_up n_down
                n_basis nwl nwg nst n_dets in
  let naive := UHFWalkersParticleHoleNaive__init__kw verbose cfg iw n_up
                 n_down n_basis nwl nwg nst n_dets in
  (length (shape iw) ≠ 2 ∧ base = raise AssertionError ∧
   wick = raise AssertionError ∧ naive = raise AssertionError) ∨
  (length (shape iw) = 2 ∧ nwl = 0 ∧ base = raise ZeroDivisionError ∧
   wick = raise ZeroDivisionError ∧ naive = raise ZeroDivisionError) ∨
  (length (shape iw) = 2 ∧ nwl ≠ 0 ∧
   ∃ self, base = ok self ∧
     if verbose
     then wick = raise AttributeError ∧ naive = raise AttributeError
     else ∃ w n, wick = ok w ∧ naive = ok n ∧
            ph_base w = self ∧ phn_base n = self ∧
            ph_ndets w = n_dets ∧ phn_ndets n = n_dets ∧
            CIa w = None ∧ CIb w = None).
Proof.
  intros base wick naive.
  destruct (decide (length (shape iw) = 2)) as [Hs|Hs].
  - right. destruct (decide (nwl = 0)) as [Hn|Hn].
    + left. split; [done|]. split; [done|].
      assert (base = raise ZeroDivisionError) as Hb.
      { unfold base, UHFWalkers__init__.
        destruct (shape iw) as [|r [|c [|? ?]]]; try done.
        subst nwl. reflexivity. }
      unfold wick, naive, UHFWalkersParticleHole__init__kw,
        UHFWalkersParticleHoleNaive__init__kw.
      fold base. by rewrite Hb.
    + right. split; [done|]. split; [done|].
      destruct (shape iw) as [|r [|c [|? ?]]] eqn:E; try done.
      destruct (UHFWalkers__init__ok cfg iw n_up n_down n_basis nwl nwg nst
                  r c E Hn) as (self & Hself & _).
      unfold wick, naive, UHFWalkersParticleHole__init__kw,
        UHFWalkersParticleHoleNaive__init__kw, base.
      rewrite Hself, !bind_ok. exists self. split; [done|].
      destruct verbose; [done|]. rewrite !bind_ok. eexists _, _. done.
  - left. split; [done|].
    assert (base = raise AssertionError) as Hb
      by (by apply UHFWalkers__init__not_2d).
    unfold wick, naive, UHFWalkersParticleHole__init__kw,
      UHFWalkersParticleHoleNaive__init__kw.
    fold base. by rewrite Hb.
Qed.

(** X11: on a batch for a Wick-factorised trial, [CIa] and [CIb] do not
    exist after construction; [build(trial)] creates them as zero
    tensors of shape [(N, trial.nact, trial.nocc_alpha)] and
    [(N, trial.nact, trial.nocc_beta)] and leaves the inherited object
    and the reference tensors as they are; a later [build] with another
    trial replaces them by tensors sized for that trial. *)
Theorem particle_hole_build {C : Type} `{Backend C}
    (cfg : BaseConfig C) (iw : ndarray C)
    (n_up n_down n_basis nwl nwg nst n_dets r c : nat)
    (trial trial' : Trial C) :
  shape iw = [r; c] → nwl ≠ 0 →
  ∃ self,
    UHFWalkersParticleHole__init__ cfg iw n_up n_down n_basis nwl nwg nst
      n_dets = ok self ∧
    CIa self = None ∧ CIb self = None ∧
    G0a self = replicate nwl (replicate n_basis (replicate n_basis czero)) ∧
    let built := UHFWalkersParticleHole_build self trial in
    CIa built = Some (replicate nwl (replicate (nact trial)
                        (replicate (nocc_alpha trial) czero))) ∧
    CIb built = Some (replicate nwl (replicate (nact trial)
                        (replicate (nocc_beta trial) czero))) ∧
    ph_base built = ph_base self ∧
    (G0a built, G0b built, Q0a built, Q0b built)
    = (G0a self, G0b self, Q0a self, Q0b self) ∧
    UHFWalkersParticleHole_build built trial'
    = UHFWalkersParticleHole_build self trial'.
Proof.
  intros Hs Hn.
  destruct (UHFWalkers__init__ok cfg iw n_up n_down n_basis nwl nwg nst r c
              Hs Hn) as (self & Hself & HN & _ & _ & Hnb & _).
  unfold UHFWalkersParticleHole__init__, UHFWalkersParticleHole__init__kw.
  rewrite Hself, !bind_ok.
  eexists. split; [reflexivity|]. simpl.
  unfold attr_nbasis. rewrite HN, Hnb. done.
Qed.

Lemma particle_hole_build_witness :
  ∃ self,
    UHFWalkersParticleHole__init__ RealData.cfg0 RealData.iw22 1 1 2 2 2 1 3
    = ok self ∧
    CIa self = None ∧
    CIa (UHFWalkersParticleHole_build self
           (RealData.trial_of ParticleHoleWicks))
    = Some [[[0%R]; [0%R]]; [[0%R]; [0%R]]].
Proof.
  destruct (particle_hole_build RealData.cfg0 RealData.iw22 1 1 2 2 2 1 3 2 2
              (RealData.trial_of ParticleHoleWicks)
              (RealData.trial_of ParticleHoleWicks) eq_refl ltac:(lia))
    as (self & Hself & Hnone & _ & _ & Hbuilt & _).
  exists self. split; [exact Hself|]. split; [exact Hnone|exact Hbuilt].
Defined.


(** ** From the trial's orbitals to the walkers *)

Section RowsFacts.
Context {C : Type}.
Implicit Types (m : list (list C)) (d : list C).

Lemma rows_of_cons r c (row d : list C) :
  length row = c →
  rows_of (S r) c (row ++ d) = row :: rows_of r c d.
Proof.
  intros Hc. unfold rows_of. simpl. f_equal.
  - by rewrite drop_0, take_app_length'.
  - change (list_fmap nat (list C)) with (@fmap list _ nat (list C)).
    rewrite <- fmap_S_seq, <- list_fmap_compose.
    apply list_fmap_ext. intros _ i _. simpl.
    rewrite drop_app_ge by lia. do 2 f_equal. lia.
Qed.

(** Cutting a buffer filled row by row gives the rows back. *)
Lemma rows_of_join m r c :
  length m = r → Forall (fun row => length row = c) m →
  rows_of r c (mjoin m) = m.
Proof.
  revert r. induction m as [|row m IH]; intros r Hl Hc; simpl in *.
  - by subst r.
  - destruct r as [|r]; [done|]. apply Forall_cons_1 in Hc as [Hrow Hc].
    rewrite rows_of_cons by done. f_equal. apply IH; [lia|done].
Qed.

Lemma rows_of_length r c d : length (rows_of r c d) = r.
Proof. unfold rows_of. by rewrite length_fmap, length_seq. Qed.

Lemma rows_of_width r c d :
  length d = r * c → Forall (fun row => length row = c) (rows_of r c d).
Proof.
  intros Hd. apply Forall_lookup. intros i row Hrow. unfold rows_of in Hrow.
  rewrite list_lookup_fmap in Hrow.
  destruct (seq 0 r !! i) as [i'|] eqn:Hi; simpl in Hrow; [|done].
  apply lookup_seq in Hi as [-> Hi]. injection Hrow as <-. simpl.
  rewrite length_take, length_drop. nia.
Qed.

Lemma cols_upto_zip_app (a b : list (list C)) n :
  length a = length b → Forall (fun row => length row = n) a →
  cols_upto n (zip_with app a b) = a.
Proof.
  unfold cols_upto. revert b. induction a as [|x a IH]; intros [|y b] Hl Hn;
    simpl in *; try done.
  apply Forall_cons_1 in Hn as [Hx Hn].
  rewrite take_app_length' by done. f_equal. apply IH; [lia|done].
Qed.

Lemma cols_from_zip_app (a b : list (list C)) n :
  length a = length b → Forall (fun row => length row = n) a →
  cols_from n (zip_with app a b) = b.
Proof.
  unfold cols_from. revert b. induction a as [|x a IH]; intros [|y b] Hl Hn;
    simpl in *; try done.
  apply Forall_cons_1 in Hn as [Hx Hn].
  rewrite drop_app_length' by done. f_equal. apply IH; [lia|done].
Qed.

Lemma zip_app_width (a b : list (list C)) n k :
  Forall (fun row => length row = n) a →
  Forall (fun row => length row = k) b →
  Forall (fun row => length row = n + k) (zip_with app a b).
Proof.
  revert b. induction a as [|x a IH]; intros [|y b] Ha Hb; simpl;
    try by constructor.
  apply Forall_cons_1 in Ha as [Hx Ha]. apply Forall_cons_1 in Hb as [Hy Hb].
  constructor; [rewrite length_app; lia|by apply IH].
Qed.

Lemma rows_of_hstack2 r ca cb (da db : list C) :
  length da = r * ca → length db = r * cb →
  rows_of r (ca + cb) (data (hstack2 r ca cb da db))
  = zip_with app (rows_of r ca da) (rows_of r cb db).
Proof.
  intros Ha Hb. unfold hstack2. simpl. apply rows_of_join.
  - rewrite length_zip_with, !rows_of_length. lia.
  - apply zip_app_width; by apply rows_of_width.
Qed.
End RowsFacts.

(** X9: for a trial that is an instance of one of the two
    Wick-factorised classes, and not of [SingleDet], whose alpha and beta
    orbitals are two-dimensional with the same number of rows, and a backend whose
    [hstack] is the column-wise concatenation, the matrix that
    [get_initial_walker] returns, given to the constructor with
    [nup] the number of alpha columns, makes every walker start at the
    trial's orbitals: [phia[i]] is [psi0a] and [phib[i]] is [psi0b]. *)
Theorem trial_orbitals_reach_walkers {C : Type} `{Backend C}
    (cfg : BaseConfig C) (trial : Trial C)
    (r ca cb n_down n_basis nwl nwg nst : nat) :
  isinstance trial SingleDet = false →
  isinstance trial ParticleHoleWicks = true ∨
  isinstance trial ParticleHoleWicksNonChunked = true →
  shape (psi0a trial) = [r; ca] → shape (psi0b trial) = [r; cb] →
  length (data (psi0a trial)) = r * ca →
  length (data (psi0b trial)) = r * cb →
  hstack (psi0a trial) (psi0b trial)
  = ok (hstack2 r ca cb (data (psi0a trial)) (data (psi0b trial))) →
  nwl ≠ 0 →
  ∃ iw self,
    get_initial_walker trial = ok (_num_dets_for_trial trial, iw) ∧
    UHFWalkers__init__ cfg iw ca n_down n_basis nwl nwg nst = ok self ∧
    phia self = replicate nwl (rows_of r ca (data (psi0a trial))) ∧
    phib self = replicate nwl (rows_of r cb (data (psi0b trial))).
Proof.
  intros Hsd Hcls Hsa Hsb Hla Hlb Hh Hn.
  set (iw := hstack2 r ca cb (data (psi0a trial)) (data (psi0b trial))).
  assert (get_initial_walker trial = ok (_num_dets_for_trial trial, iw)) as Hg.
  { unfold get_initial_walker. rewrite Hsd.
    destruct (isinstance trial ParticleHoleWicks); [by rewrite Hh|].
    destruct Hcls as [Hw|Hw]; [done|]. by rewrite Hw, Hh. }
  destruct (UHFWalkers__init__ok cfg iw ca n_down n_basis nwl nwg nst
              r (ca + cb) eq_refl Hn)
    as (self & Hself & _ & _ & _ & _ & Hpa & Hpb & _).
  exists iw, self. split; [done|]. split; [done|].
  rewrite Hpa, Hpb. unfold iw. rewrite rows_of_hstack2 by done.
  rewrite cols_upto_zip_app, cols_from_zip_app;
    rewrite ?rows_of_length; try done; by apply rows_of_width.
Qed.

Lemma trial_orbitals_reach_walkers_witness :
  ∃ iw self,
    get_initial_walker (RealData.trial_of ParticleHoleWicks) = ok (3, iw) ∧
    UHFWalkers__init__ RealData.cfg0 iw 2 2 2 2 2 1 = ok self ∧
    phia self = replicate 2 [[1%R; 2%R]; [3%R; 4%R]] ∧
    phib self = replicate 2 [[1%R; 2%R]; [3%R; 4%R]].
Proof.
  apply (trial_orbitals_reach_walkers RealData.cfg0
           (RealData.trial_of ParticleHoleWicks) 2 2 2 2 2 2 2 1).
  - reflexivity.
  - left. reflexivity.
  - reflexivity.
  - reflexivity.
  - reflexivity.
  - reflexivity.
  - reflexivity.
  - lia.
Defined.


(** ** The autocorrelation helpers *)

Module AutocorrFacts.
Import Autocorr.
Local Open Scope Z_scope.

Lemma shiftl_pow2 (j : nat) :
  Z.shiftl (2 ^ Z.of_nat j) 1 = 2 ^ Z.of_nat (S j).
Proof.
  rewrite Z.shiftl_mul_pow2 by lia.
  rewrite Nat2Z.inj_succ, Z.pow_succ_r by lia. lia.
Qed.

Lemma next_pow_two_loop_spec (n : Z) (d : nat) :
  ∀ j : nat,
    n - 2 ^ Z.of_nat j ≤ Z.of_nat d →
    (j = 0%nat ∨ 2 ^ (Z.of_nat j - 1) < n) →
    ∃ k : nat,
      (j ≤ k)%nat ∧
      (∀ fuel, (k - j ≤ fuel)%nat →
         next_pow_two_loop fuel (2 ^ Z.of_nat j) n = Some (2 ^ Z.of_nat k)) ∧
      n ≤ 2 ^ Z.of_nat k ∧
      (k = 0%nat ∨ 2 ^ (Z.of_nat k - 1) < n).
Proof.
  induction d as [|d IH]; intros j Hd Hj.
  - exists j. split; [lia|]. split; [|split; [lia|done]].
    intros fuel _. destruct fuel; simpl; rewrite decide_False by lia; done.
  - destruct (decide (2 ^ Z.of_nat j < n)) as [Hlt|Hge].
    + assert (0 < 2 ^ Z.of_nat j) by (apply Z.pow_pos_nonneg; lia).
      destruct (IH (S j)) as (k & Hk & Hrun & Hup & Hlow).
      { rewrite Nat2Z.inj_succ, Z.pow_succ_r by lia. lia. }
      { right. by replace (Z.of_nat (S j) - 1) with (Z.of_nat j) by lia. }
      exists k. split; [lia|]. split; [|done].
      intros fuel Hf. destruct fuel as [|fuel]; [lia|].
      simpl. rewrite decide_True by done. rewrite shiftl_pow2.
      apply Hrun. lia.
    + exists j. split; [lia|]. split; [|split; [lia|done]].
      intros fuel _. destruct fuel; simpl; rewrite decide_False by lia; done.
Qed.

Lemma pow2_index_bound (k : nat) (n : Z) :
  (k = 0%nat ∨ 2 ^ (Z.of_nat k - 1) < n) → (k ≤ Z.to_nat n)%nat.
Proof.
  intros [->|Hk]; [lia|].
  destruct k as [|k]; [lia|].
  replace (Z.of_nat (S k) - 1) with (Z.of_nat k) in Hk by lia.
  pose proof (Z.pow_gt_lin_r 2 (Z.of_nat k) ltac:(lia) ltac:(lia)). lia.
Qed.

Lemma next_pow_two_exponent (n : Z) :
  ∃ k : nat,
    (∀ fuel, (Z.to_nat n ≤ fuel)%nat →
       next_pow_two fuel n = Some (2 ^ Z.of_nat k)) ∧
    n ≤ 2 ^ Z.of_nat k ∧
    (k = 0%nat ∨ 2 ^ (Z.of_nat k - 1) < n).
Proof.
  destruct (next_pow_two_loop_spec n (Z.to_nat n) 0)
    as (k & _ & Hrun & Hup & Hlow); [simpl; lia|by left|].
  exists k. split; [|done].
  intros fuel Hf. apply Hrun.
  pose proof (pow2_index_bound k n Hlow). lia.
Qed.

(** X13: [next_pow_two(n)] returns for every integer [n], after at most
    [n] doublings, and its result is the smallest power of two that is
    at least [n]: it is [2^k] with [n <= 2^k], and either [k = 0] or
    [2^(k-1) < n]. *)
Theorem next_pow_two_smallest_power (n : Z) :
  ∃ k : nat,
    (∀ fuel, (Z.to_nat n ≤ fuel)%nat →
       next_pow_two fuel n = Some (2 ^ Z.of_nat k)) ∧
    n ≤ 2 ^ Z.of_nat k ∧
    (k = 0%nat ∨ 2 ^ (Z.of_nat k - 1) < n).
Proof. apply next_pow_two_exponent. Qed.

(** X14: the result of [next_pow_two] is 1 for every [n <= 1], zero and
    the negative integers included; for [n >= 1] it is below [2 n]; and
    a power of two is returned as it is. *)
Theorem next_pow_two_bounds (n : Z) :
  ∃ r,
    next_pow_two (Z.to_nat n) n = Some r ∧ 1 ≤ r ∧ n ≤ r ∧
    (n ≤ 1 → r = 1) ∧ (1 ≤ n → r < 2 * n) ∧
    (∀ m : nat, n = 2 ^ Z.of_nat m → r = n).
Proof.
  destruct (next_pow_two_exponent n) as (k & Hrun & Hup & Hlow).
  exists (2 ^ Z.of_nat k). split; [by apply Hrun|].
  assert (0 < 2 ^ Z.of_nat k) by (apply Z.pow_pos_nonneg; lia).
  split; [lia|]. split; [done|].
  assert (k ≠ 0%nat → 2 ^ Z.of_nat k = 2 * 2 ^ (Z.of_nat k - 1)) as Hhalf.
  { intros Hk. rewrite <- Z.pow_succ_r by lia. f_equal. lia. }
  assert (k ≠ 0%nat → 1 ≤ 2 ^ (Z.of_nat k - 1)) as Hone.
  { intros Hk. pose proof (Z.pow_pos_nonneg 2 (Z.of_nat k - 1)). lia. }
  split; [|split].
  - intros Hn. destruct Hlow as [->|Hlow]; [done|].
    destruct (decide (k = 0%nat)) as [->|Hk]; [done|].
    specialize (Hone Hk). lia.
  - intros Hn. destruct Hlow as [->|Hlow]; [simpl; lia|].
    destruct (decide (k = 0%nat)) as [->|Hk]; [simpl; lia|].
    rewrite (Hhalf Hk). lia.
  - intros m ->. f_equal.
    destruct Hlow as [->|Hlow].
    + destruct m as [|m]; [done|].
      pose proof (Z.pow_gt_1 2 (Z.of_nat (S m)) ltac:(lia)) as Hgt.
      simpl Z.of_nat in Hup. change (2 ^ Z.of_nat 0) with 1 in Hup. lia.
    + apply Z.pow_le_mono_r_iff in Hup; [|lia|lia].
      apply Z.pow_lt_mono_r_iff in Hlow; [|lia|lia]. lia.
Qed.

Section AutoWindowFacts.
Context {T : Type} (mul : T → T → T) (below : nat → T → bool).

Lemma np_any_true (m : list bool) :
  np_any m = true ↔ ∃ i, m !! i = Some true.
Proof.
  unfold np_any. rewrite existsb_exists. split.
  - intros (b & Hin & ->). apply list_elem_of_In, list_elem_of_lookup in Hin.
    done.
  - intros (i & Hi). exists true. split; [|done].
    apply list_elem_of_In, list_elem_of_lookup. eauto.
Qed.

Lemma np_argmin_first_false (m : list bool) i :
  m !! i = Some false → (∀ j, (j < i)%nat → m !! j = Some true) →
  np_argmin m = i.
Proof.
  intros Hi Hbefore. unfold np_argmin.
  destruct (list_find (λ b, b = false) m) as [[j b]|] eqn:E.
  - apply list_find_Some in E as (Hj & -> & Hmin).
    destruct (Nat.lt_trichotomy i j) as [Hlt|[->|Hgt]]; [|done|].
    + by destruct (Hmin i false Hi Hlt).
    + specialize (Hbefore j Hgt). congruence.
  - apply list_find_None in E.
    by destruct ((proj1 (Forall_lookup _ _) E) i false Hi).
Qed.

Lemma np_argmin_all_true (m : list bool) :
  (∀ i b, m !! i = Some b → b = true) → np_argmin m = 0%nat.
Proof.
  intros Hall. unfold np_argmin.
  destruct (list_find (λ b, b = false) m) as [[j b]|] eqn:E; [|done].
  apply list_find_Some in E as (Hj & -> & _). by specialize (Hall j false Hj).
Qed.

Lemma np_argmin_lt (m : list bool) : m ≠ [] → (np_argmin m < length m)%nat.
Proof.
  intros Hm. unfold np_argmin.
  destruct (list_find (λ b, b = false) m) as [[j b]|] eqn:E.
  - apply list_find_Some in E as (Hj & _). by eapply lookup_lt_Some.
  - destruct m; [done|simpl; lia].
Qed.

Lemma window_mask_lookup (taus : list T) c i :
  window_mask mul below taus c !! i
  = (fun tau => below i (mul c tau)) <$> taus !! i.
Proof. unfold window_mask. apply list_lookup_imap. Qed.

(** X15: on an empty list [auto_window] returns -1; on a non-empty one
    it returns an index of the list. *)
Theorem auto_window_range (taus : list T) (c : T) :
  (taus = [] → auto_window mul below taus c = -1) ∧
  (taus ≠ [] →
   0 ≤ auto_window mul below taus c < Z.of_nat (length taus)).
Proof.
  split.
  - intros ->. reflexivity.
  - intros Hne. unfold auto_window.
    assert (length (window_mask mul below taus c) = length taus) as Hl
      by (unfold window_mask; apply length_imap).
    destruct (np_any _).
    + pose proof (np_argmin_lt (window_mask mul below taus c)) as Hlt.
      rewrite Hl in Hlt.
      assert (window_mask mul below taus c ≠ []) as Hm.
      { intros Hm. rewrite Hm in Hl. simpl in Hl.
        destruct taus; [done|simpl in Hl; lia]. }
      specialize (Hlt Hm). lia.
    + destruct taus; [done|]. simpl length. lia.
Qed.

(** X16: the window that [auto_window] picks.  When some lag [i] has
    [i < c * taus[i]] and some lag has not, it is the first lag that has
    not.  When every lag has, it is 0, not the last index.  When no lag
    has, it is the last index. *)
Theorem auto_window_first_lag (taus : list T) (c : T) :
  (∀ w tau,
     taus !! w = Some tau → below w (mul c tau) = false →
     (∀ i x, (i < w)%nat → taus !! i = Some x → below i (mul c x) = true) →
     (∃ i x, taus !! i = Some x ∧ below i (mul c x) = true) →
     auto_window mul below taus c = Z.of_nat w) ∧
  (taus ≠ [] →
   (∀ i x, taus !! i = Some x → below i (mul c x) = true) →
   auto_window mul below taus c = 0) ∧
  ((∀ i x, taus !! i = Some x → below i (mul c x) = false) →
   auto_window mul below taus c = Z.of_nat (length taus) - 1).
Proof.
  split; [|split].
  - intros w tau Hw Hfalse Hbefore (i & x & Hi & Hx). unfold auto_window.
    assert (np_any (window_mask mul below taus c) = true) as ->.
    { apply np_any_true. exists i. by rewrite window_mask_lookup, Hi; simpl; rewrite Hx. }
    f_equal. apply np_argmin_first_false.
    + by rewrite window_mask_lookup, Hw; simpl; rewrite Hfalse.
    + intros j Hj. rewrite window_mask_lookup.
      destruct (lookup_lt_is_Some_2 taus j) as [y Hy].
      { apply lookup_lt_Some in Hw. lia. }
      rewrite Hy. simpl. by rewrite (Hbefore j y Hj Hy).
  - intros Hne Hall. unfold auto_window.
    assert (np_any (window_mask mul below taus c) = true) as ->.
    { apply np_any_true. exists 0%nat. rewrite window_mask_lookup.
      destruct taus as [|x taus']; [done|]. simpl.
      by rewrite (Hall 0%nat x eq_refl). }
    rewrite np_argmin_all_true; [done|].
    intros i b Hb. rewrite window_mask_lookup in Hb.
    destruct (taus !! i) as [x|] eqn:Hx; simpl in Hb; [|done].
    injection Hb as <-. by apply Hall.
  - intros Hnone. unfold auto_window.
    destruct (np_any (window_mask mul below taus c)) eqn:E; [|done].
    apply np_any_true in E as (i & Hi). rewrite window_mask_lookup in Hi.
    destruct (taus !! i) as [x|] eqn:Hx; simpl in Hi; [|done].
    injection Hi as Hi. rewrite (Hnone i x Hx) in Hi. done.
Qed.
End AutoWindowFacts.
End AutocorrFacts.


Module AutocorrWitnesses.
Import Autocorr.
Local Open Scope Z_scope.

Lemma next_pow_two_smallest_power_witness :
  ∃ k : nat, next_pow_two 5 5 = Some (2 ^ Z.of_nat k) ∧ 5 ≤ 2 ^ Z.of_nat k.
Proof.
  destruct (AutocorrFacts.next_pow_two_smallest_power 5)
    as (k & Hrun & Hup & _).
  exists k. split; [|exact Hup]. apply Hrun. simpl. lia.
Defined.

Lemma next_pow_two_bounds_witness :
  ∃ r, next_pow_two 0 0 = Some r ∧ r = 1.
Proof.
  destruct (AutocorrFacts.next_pow_two_bounds 0)
    as (r & Hrun & _ & _ & Hone & _).
  exists r. split; [exact Hrun|]. apply Hone. lia.
Defined.

Lemma auto_window_range_witness :
  auto_window Z.mul (fun i x => Z.of_nat i <? x) [] 1 = -1 ∧
  0 ≤ auto_window Z.mul (fun i x => Z.of_nat i <? x) [3; 1; 5] 1 < 3.
Proof.
  split.
  - apply (proj1 (AutocorrFacts.auto_window_range Z.mul
                    (fun i x => Z.of_nat i <? x) [] 1)).
    reflexivity.
  - apply (proj2 (AutocorrFacts.auto_window_range Z.mul
                    (fun i x => Z.of_nat i <? x) [3; 1; 5] 1)).
    discriminate.
Defined.

Lemma auto_window_first_lag_witness :
  auto_window Z.mul (fun i x => Z.of_nat i <? x) [3; 1; 5] 1 = 1.
Proof.
  apply (proj1 (AutocorrFacts.auto_window_first_lag Z.mul
                  (fun i x => Z.of_nat i <? x) [3; 1; 5] 1) 1%nat 1).
  - reflexivity.
  - reflexivity.
  - intros i x Hi Hx. destruct i as [|i]; [|lia].
    injection Hx as <-. reflexivity.
  - exists 0%nat, 3. split; reflexivity.
Defined.
End AutocorrWitnesses.
